(** * Case-conversion helpers: camelCase, dotCase, toKebabCase

    A shallow embedding of the two JavaScript sources of the repository:
    the file holding [camelCase], [dotCase] and the delimiter-aware
    [toKebabCase] (module [Part000]) and [chain_prompt.js], which holds the
    simplified [toKebabCase] (module [ChainPrompt]).

    The functions are chains of [String.prototype] and [Array.prototype]
    calls over regular expressions, so the embedding starts with a small
    model of those built-ins (module [JS]): strings are sequences of UTF-16
    code units, a regular expression is a syntax tree run by a backtracking
    matcher, and [replace], [split], [filter], [map] and [join] are the
    functions the sources chain. *)

From Stdlib Require Import List NArith ZArith Bool String Ascii Lia PeanoNat.
Import ListNotations.

(* ================================================================== *)
(** * The JavaScript built-ins the sources call                        *)
(* ================================================================== *)

Module JS.

Local Open Scope N_scope.

(** A string is its sequence of UTF-16 code units. *)
Definition jsstring : Type := list N.

(** A literal, written as a Rocq string of ASCII characters. *)
Definition cu (a : ascii) : N := N_of_ascii a.
Definition lit (s : string) : jsstring := map cu (list_ascii_of_string s).

(** Values a caller can pass.  The sources inspect a value with
    [=== undefined], [=== null] and [typeof] only, so numbers carry an
    integer and every object, array or function is [VObject]. *)
Inductive value : Type :=
| VUndefined
| VNull
| VBoolean (b : bool)
| VNumber (n : Z)
| VString (s : jsstring)
| VObject.

Inductive jstype : Type := TUndefined | TObject | TBoolean | TNumber | TString.

Definition typeof (v : value) : jstype :=
  match v with
  | VUndefined => TUndefined
  | VNull => TObject
  | VBoolean _ => TBoolean
  | VNumber _ => TNumber
  | VString _ => TString
  | VObject => TObject
  end.

(** [new Error(message)]. *)
Inductive exn : Type := Error (message : string).

(** How a call ends: [return s] or [throw e]. *)
Inductive completion : Type :=
| Return (s : jsstring)
| Throw (e : exn).

(** ** Code-unit classes *)

Definition between (lo hi c : N) : bool := (lo <=? c) && (c <=? hi).

Definition isUpper (c : N) : bool := between 65 90 c.    (* A-Z *)
Definition isLower (c : N) : bool := between 97 122 c.   (* a-z *)
Definition isDigit (c : N) : bool := between 48 57 c.    (* 0-9 *)
Definition isAlnum (c : N) : bool := isLower c || isUpper c || isDigit c.
Definition isLowDig (c : N) : bool := isLower c || isDigit c.

(** WhiteSpace and LineTerminator of the language: what [\s] matches and
    what [trim] strips. *)
Definition isWhiteSpace (c : N) : bool :=
  existsb (N.eqb c)
    [9; 10; 11; 12; 13; 32; 160; 5760; 8232; 8233; 8239; 8287; 12288; 65279]
  || between 8192 8202 c.

(** ** Case conversion

    [toLowerCase] and [toUpperCase] on the ASCII range; a code unit
    outside it is kept.  In [Part000] both are only ever called on tokens
    of [[a-zA-Z0-9]], where this is the whole of their behaviour (lemmas
    [camelWords_wf] and [delimitedWords_wf]); [ChainPrompt] calls
    [toLowerCase] on its whole argument, and the model is the built-in on
    arguments of ASCII code units. *)
Definition lowerUnit (c : N) : N := if isUpper c then c + 32 else c.
Definition upperUnit (c : N) : N := if isLower c then c - 32 else c.

Definition toLowerCase (s : jsstring) : jsstring := map lowerUnit s.
Definition toUpperCase (s : jsstring) : jsstring := map upperUnit s.

(** ** Character classes of a pattern *)

Inductive citem : Type :=
| Range (lo hi : ascii)      (* a-z *)
| Single (c : ascii)         (* _   *)
| Space.                     (* \s  *)

Definition itemHas (i : citem) (c : N) : bool :=
  match i with
  | Range lo hi => between (cu lo) (cu hi) c
  | Single a => c =? cu a
  | Space => isWhiteSpace c
  end.

(** [[...]]. *)
Definition oneOf (items : list citem) (c : N) : bool :=
  existsb (fun i => itemHas i c) items.

(** [[^...]]. *)
Definition noneOf (items : list citem) (c : N) : bool :=
  negb (oneOf items c).

(** The same two under the [i] flag: a code unit is in the class when some
    member has the same canonical (upper-case) form.  Canonicalize never
    sends a code unit from 128 upwards below 128, so for the ASCII classes
    of the sources only the ASCII case pairs count. *)
Definition oneOfI (items : list citem) (c : N) : bool :=
  oneOf items c || oneOf items (lowerUnit c) || oneOf items (upperUnit c).

Definition noneOfI (items : list citem) (c : N) : bool :=
  negb (oneOfI items c).

(** ** Patterns

    The fragment of the pattern language the sources use: a class, a class
    under a greedy [+], concatenation, alternation and capture groups. *)
Inductive regex : Type :=
| Class (p : N -> bool)
| ClassPlus (p : N -> bool)
| Seq (r1 r2 : regex)
| Alt (r1 r2 : regex)
| Group (r : regex).

(** One way a pattern matches at the start of a string: the captures in
    the order of their opening parentheses, the matched text, and what
    follows it. *)
Record success : Type := mkSuccess
  { captures : list jsstring; matched : jsstring; rest : jsstring }.

(** The ways [[p]+] matches at the start of [s], in the matcher's order of
    preference: greedy, so the longest run first, then each shorter one. *)
Fixpoint repeats (p : N -> bool) (s : jsstring) : list (jsstring * jsstring) :=
  match s with
  | [] => []
  | c :: s' =>
      if p c
      then map (fun mr => (c :: fst mr, snd mr)) (repeats p s') ++ [([c], s')]
      else []
  end.

(** The backtracking matcher, as the list of its successes at the start of
    [s] in the order in which backtracking would find them. *)
Fixpoint matches (r : regex) (s : jsstring) : list success :=
  match r with
  | Class p =>
      match s with
      | c :: s' => if p c then [mkSuccess [] [c] s'] else []
      | [] => []
      end
  | ClassPlus p =>
      map (fun mr => mkSuccess [] (fst mr) (snd mr)) (repeats p s)
  | Seq r1 r2 =>
      flat_map
        (fun a =>
           map (fun b => mkSuccess (captures a ++ captures b)
                                   (matched a ++ matched b) (rest b))
               (matches r2 (rest a)))
        (matches r1 s)
  | Alt r1 r2 => matches r1 s ++ matches r2 s
  | Group r1 =>
      map (fun a => mkSuccess (matched a :: captures a) (matched a) (rest a))
          (matches r1 s)
  end.

(** The match the matcher reports at a position: its first success. *)
Definition exec (r : regex) (s : jsstring) : option success :=
  hd_error (matches r s).

(** [$n] of a replacement template. *)
Definition capture (n : nat) (a : success) : jsstring :=
  nth (n - 1) (captures a) [].

(** [s.replace(/r/g, template)]: scan from the left; at a match emit the
    template and go on after the matched text, elsewhere copy the code
    unit.  [skip] counts the code units of the current match still to be
    passed over.  No pattern of the fragment matches the empty string
    (lemma [matches_consume]), so every match moves the scan on. *)
Fixpoint replaceFrom (r : regex) (template : success -> jsstring)
    (skip : nat) (s : jsstring) : jsstring :=
  match s with
  | [] => []
  | c :: s' =>
      match skip with
      | S k => replaceFrom r template k s'
      | O =>
          match exec r s with
          | Some a =>
              template a ++ replaceFrom r template (pred (List.length (matched a))) s'
          | None => c :: replaceFrom r template 0 s'
          end
      end
  end.

Definition replace (r : regex) (template : success -> jsstring)
    (s : jsstring) : jsstring :=
  replaceFrom r template 0 s.

(** [s.split(/r/)] for a pattern without capture groups: the pieces
    between the matches, empty pieces included.  [cur] is the piece being
    read, last code unit first. *)
Fixpoint splitFrom (r : regex) (skip : nat) (cur : jsstring) (s : jsstring)
    : list jsstring :=
  match s with
  | [] => [rev cur]
  | c :: s' =>
      match skip with
      | S k => splitFrom r k cur s'
      | O =>
          match exec r s with
          | Some a => rev cur :: splitFrom r (pred (List.length (matched a))) [] s'
          | None => splitFrom r 0 (c :: cur) s'
          end
      end
  end.

Definition split (r : regex) (s : jsstring) : list jsstring :=
  splitFrom r 0 [] s.

(** [Boolean(s)] for a string: false on the empty string only. *)
Definition Boolean (s : jsstring) : bool :=
  match s with [] => false | _ :: _ => true end.

(** [a.map((x, idx) => f(x, idx))], counting from [idx]. *)
Fixpoint mapFrom {A B : Type} (f : A -> nat -> B) (idx : nat) (l : list A)
    : list B :=
  match l with
  | [] => []
  | x :: l' => f x idx :: mapFrom f (S idx) l'
  end.

Definition mapi {A B : Type} (f : A -> nat -> B) (l : list A) : list B :=
  mapFrom f 0 l.

(** [a.join(sep)]. *)
Fixpoint join (sep : jsstring) (a : list jsstring) : jsstring :=
  match a with
  | [] => []
  | [w] => w
  | w :: a' => w ++ sep ++ join sep a'
  end.

(** [s === t] on strings. *)
Fixpoint strictEq (s t : jsstring) : bool :=
  match s, t with
  | [], [] => true
  | c :: s', d :: t' => (c =? d) && strictEq s' t'
  | _, _ => false
  end.

(** [s.charAt(0)] and [s.slice(1)]. *)
Definition charAt0 (s : jsstring) : jsstring :=
  match s with [] => [] | c :: _ => [c] end.

Definition slice1 (s : jsstring) : jsstring := tl s.

(** [s.trim()]. *)
Fixpoint trimStart (s : jsstring) : jsstring :=
  match s with
  | [] => []
  | c :: s' => if isWhiteSpace c then trimStart s' else s
  end.

Definition trimEnd (s : jsstring) : jsstring := rev (trimStart (rev s)).

Definition trim (s : jsstring) : jsstring := trimEnd (trimStart s).

End JS.

Import JS.

(* ================================================================== *)
(** * camelCase, dotCase and the delimiter-aware toKebabCase           *)
(* ================================================================== *)

Module Part000.

Local Open Scope char_scope.

(** [/[^a-zA-Z0-9]+/] *)
Definition reNonAlnum : regex :=
  ClassPlus (noneOf [Range "a" "z"; Range "A" "Z"; Range "0" "9"]).

(** [/([a-z0-9])([A-Z])/g] *)
Definition reCamel : regex :=
  Seq (Group (Class (oneOf [Range "a" "z"; Range "0" "9"])))
      (Group (Class (oneOf [Range "A" "Z"]))).

(** [/([A-Z]+)([A-Z][a-z0-9]+)/g] *)
Definition reAcronym : regex :=
  Seq (Group (ClassPlus (oneOf [Range "A" "Z"])))
      (Group (Seq (Class (oneOf [Range "A" "Z"]))
                  (ClassPlus (oneOf [Range "a" "z"; Range "0" "9"])))).

(** [/[^a-zA-Z0-9]+|[\s_]+/] *)
Definition reDelimiter : regex :=
  Alt (ClassPlus (noneOf [Range "a" "z"; Range "A" "Z"; Range "0" "9"]))
      (ClassPlus (oneOf [Space; Single "_"])).

(** The template ['$1 $2']. *)
Definition dollar1_space_dollar2 (a : success) : jsstring :=
  capture 1 a ++ [cu " "] ++ capture 2 a.

Definition invalidInput : exn :=
  Error "Input must be a string, undefined, or null.".

(** The callback of [camelCase]'s [map]. *)
Definition camelWord (word : jsstring) (idx : nat) : jsstring :=
  if strictEq word (toUpperCase word)
  then (if Nat.eqb idx 0 then toLowerCase word else word)
  else if Nat.eqb idx 0 then toLowerCase word
  else toUpperCase (charAt0 word) ++ toLowerCase (slice1 word).

(** The word list of [camelCase]. *)
Definition camelWords (input : jsstring) : list jsstring :=
  filter Boolean (split reNonAlnum input).

Definition camelCase (input : value) : completion :=
  match input with
  | VUndefined | VNull => Return []
  | VString input =>
      let words := camelWords input in
      if Nat.eqb (List.length words) 0 then Return []
      else Return (join [] (mapi camelWord words))
  | VBoolean _ | VNumber _ | VObject => Throw invalidInput
  end.

(** The two [replace] calls that [dotCase] and [toKebabCase] share. *)
Definition camelStep (s : jsstring) : jsstring :=
  replace reCamel dollar1_space_dollar2 s.

Definition acronymStep (s : jsstring) : jsstring :=
  replace reAcronym dollar1_space_dollar2 s.

(** The word list of [dotCase] and [toKebabCase]. *)
Definition delimitedWords (input : jsstring) : list jsstring :=
  filter Boolean (split reDelimiter (acronymStep (camelStep input))).

Definition dotCase (input : value) : completion :=
  match input with
  | VUndefined | VNull => Return []
  | VString input =>
      let words := delimitedWords input in
      Return (join [cu "."] (map toLowerCase words))
  | VBoolean _ | VNumber _ | VObject => Throw invalidInput
  end.

Definition toKebabCase (input : value) : completion :=
  match input with
  | VUndefined | VNull => Return []
  | VString input =>
      let words := delimitedWords input in
      Return (join [cu "-"] (map toLowerCase words))
  | VBoolean _ | VNumber _ | VObject => Throw invalidInput
  end.

End Part000.

(* ================================================================== *)
(** * chain_prompt.js: the simplified toKebabCase                      *)
(* ================================================================== *)

Module ChainPrompt.

Local Open Scope char_scope.

(** [/[^a-z0-9]+/gi] *)
Definition reNonAlnumI : regex :=
  ClassPlus (noneOfI [Range "a" "z"; Range "0" "9"]).

(** [/\s+/g] *)
Definition reSpaces : regex := ClassPlus (oneOf [Space]).

Definition invalidInput : exn := Error "Invalid Input: expected a string.".

(** The only guard is [typeof input !== 'string']; a string goes through
    [trim], [toLowerCase], the two [replace] calls and the second [trim]
    in the order of the chain. *)
Definition toKebabCase (input : value) : completion :=
  match input with
  | VString input =>
      Return
        (replace reSpaces (fun _ => [cu "-"])
           (trim
              (replace reNonAlnumI (fun _ => [cu " "])
                 (toLowerCase (trim input)))))
  | VUndefined | VNull | VBoolean _ | VNumber _ | VObject => Throw invalidInput
  end.

End ChainPrompt.

(* ================================================================== *)
(** * Reference definitions the theorems compare the code with         *)
(* ================================================================== *)

Import Part000.

(** The piece being read, if there is one. *)
Definition flush (cur : jsstring) : list jsstring :=
  match cur with [] => [] | _ :: _ => [rev cur] end.

(** The maximal runs of code units satisfying [isWord], left to right. *)
Fixpoint runsFrom (isWord : N -> bool) (cur : jsstring) (s : jsstring)
    : list jsstring :=
  match s with
  | [] => flush cur
  | c :: s' =>
      if isWord c then runsFrom isWord (c :: cur) s'
      else flush cur ++ runsFrom isWord [] s'
  end.

(** A word token: a maximal run of alphanumeric code units. *)
Definition alnumRuns (s : jsstring) : list jsstring := runsFrom isAlnum [] s.

(** [s] with a space put after each code unit at which [here] holds of
    the text from that code unit on. *)
Fixpoint insertWhere (here : jsstring -> bool) (s : jsstring) : jsstring :=
  match s with
  | [] => []
  | c :: s' =>
      c :: (if here s then [cu " "] else []) ++ insertWhere here s'
  end.

(** A lower-case letter or digit, then an upper-case letter. *)
Definition lowerUpperBoundary (s : jsstring) : bool :=
  match s with
  | a :: b :: _ => isLowDig a && isUpper b
  | _ => false
  end.

(** The shape of the acronym pattern, over any two classes:
    [(up+)(up low+)]. *)
Definition acronymShape (up low : N -> bool) : regex :=
  Seq (Group (ClassPlus up)) (Group (Seq (Class up) (ClassPlus low))).

(** An upper-case letter, then an upper-case letter and a lower-case
    letter or digit. *)
Definition acronymBoundary (s : jsstring) : bool :=
  match s with
  | a :: b :: c :: _ => isUpper a && isUpper b && isLowDig c
  | _ => false
  end.

(** The absent-value markers. *)
Definition absent (v : value) : Prop := v = VUndefined \/ v = VNull.

(** The validation step of a function of [Part000]: an absent argument
    returns the empty string, any other argument that is not a string
    throws, and a string is passed on to [body], the tokenizer and
    joiner, whose result is returned. *)
Definition validates (f : value -> completion) (body : jsstring -> jsstring)
    : Prop :=
  (forall v, absent v -> f v = Return []) /\
  (forall v, ~ absent v -> typeof v <> TString ->
             f v = Throw Part000.invalidInput) /\
  (forall v, typeof v = TString ->
             exists s, v = VString s /\ f v = Return (body s)).

(** A word with its first code unit in upper case and the others in lower
    case. *)
Definition capitalize (w : jsstring) : jsstring :=
  match w with
  | [] => []
  | c :: w' => upperUnit c :: toLowerCase w'
  end.

(** The casing rule of [camelCase] for the word at index [i], as the
    specification words it: an acronym is a word equal to its own
    upper-case form. *)
Inductive camelRule : nat -> jsstring -> jsstring -> Prop :=
| rule_acronym_first (w : jsstring) :
    toUpperCase w = w -> camelRule 0 w (toLowerCase w)
| rule_acronym_later (i : nat) (w : jsstring) :
    toUpperCase w = w -> camelRule (S i) w w
| rule_word_first (w : jsstring) :
    toUpperCase w <> w -> camelRule 0 w (toLowerCase w)
| rule_word_later (i : nat) (w : jsstring) :
    toUpperCase w <> w -> camelRule (S i) w (capitalize w).

(** The rule along a word list whose first word has index [i]. *)
Inductive camelRules : nat -> list jsstring -> list jsstring -> Prop :=
| rules_nil (i : nat) : camelRules i [] []
| rules_cons (i : nat) (w o : jsstring) (ws os : list jsstring) :
    camelRule i w o -> camelRules (S i) ws os ->
    camelRules i (w :: ws) (o :: os).

(** A lower-cased word: a non-empty string of lower-case letters and
    digits. *)
Definition lowWord (w : jsstring) : Prop :=
  w <> [] /\ Forall (fun d => isLowDig d = true) w.

(** [s] with every [.] replaced by [-]. *)
Definition dotsToHyphens (s : jsstring) : jsstring :=
  map (fun c => if N.eqb c (cu ".") then cu "-" else c) s.

(* ================================================================== *)
(** * The matcher                                                      *)
(* ================================================================== *)

Section Matcher.

Lemma repeats_sound (p : N -> bool) (s : jsstring) (mr : jsstring * jsstring) :
  In mr (repeats p s) ->
  fst mr ++ snd mr = s /\ fst mr <> [] /\ Forall (fun c => p c = true) (fst mr).
Proof.
  revert mr; induction s as [|c s' IH]; intros mr; simpl; [tauto|].
  destruct (p c) eqn:Hc; [|simpl; tauto].
  rewrite in_app_iff, in_map_iff.
  intros [[x [<- Hx]]|[<-|[]]]; simpl.
  - destruct (IH _ Hx) as (E & _ & F).
    split; [f_equal; exact E|split; [discriminate|now constructor]].
  - split; [reflexivity|split; [discriminate|now repeat constructor]].
Qed.

(** Every success splits the subject into the matched text and the rest,
    and the matched text is never empty. *)
Lemma matches_consume (r : regex) :
  forall s a, In a (matches r s) ->
    matched a ++ rest a = s /\ matched a <> [].
Proof.
  induction r as [p|p|r1 IH1 r2 IH2|r1 IH1 r2 IH2|r1 IH1]; intros s a; simpl.
  - destruct s as [|c s']; [intros []|].
    destruct (p c); simpl; [|tauto].
    intros [<-|[]]; simpl; split; [reflexivity|discriminate].
  - rewrite in_map_iff. intros [mr [<- Hmr]]; simpl.
    destruct (repeats_sound _ _ _ Hmr) as (E & Hne & _). now split.
  - rewrite in_flat_map. intros [x [Hx Ha]].
    rewrite in_map_iff in Ha. destruct Ha as [y [<- Hy]]; simpl.
    destruct (IH1 _ _ Hx) as [E1 N1]. destruct (IH2 _ _ Hy) as [E2 N2].
    split.
    + now rewrite <- app_assoc, E2, E1.
    + destruct (matched x); [congruence|discriminate].
  - rewrite in_app_iff. intros [H|H]; [now apply IH1|now apply IH2].
  - rewrite in_map_iff. intros [x [<- Hx]]; simpl. now apply IH1.
Qed.

Lemma in_matches_class (p : N -> bool) (s : jsstring) (a : success) :
  In a (matches (Class p) s) ->
  exists c s', s = c :: s' /\ p c = true /\ a = mkSuccess [] [c] s'.
Proof.
  simpl. destruct s as [|c s']; [intros []|].
  destruct (p c) eqn:Hc; [|intros []].
  intros [<-|[]]. now exists c, s'.
Qed.

Lemma in_matches_plus (p : N -> bool) (s : jsstring) (a : success) :
  In a (matches (ClassPlus p) s) ->
  exists m r, In (m, r) (repeats p s) /\ a = mkSuccess [] m r.
Proof.
  simpl. rewrite in_map_iff. intros ([m r] & <- & H). now exists m, r.
Qed.

Lemma in_matches_seq (r1 r2 : regex) (s : jsstring) (a : success) :
  In a (matches (Seq r1 r2) s) ->
  exists x y,
    In x (matches r1 s) /\ In y (matches r2 (rest x)) /\
    a = mkSuccess (captures x ++ captures y) (matched x ++ matched y) (rest y).
Proof.
  simpl. rewrite in_flat_map. intros (x & Hx & H).
  rewrite in_map_iff in H. destruct H as (y & <- & Hy). now exists x, y.
Qed.

Lemma in_matches_group (r : regex) (s : jsstring) (a : success) :
  In a (matches (Group r) s) ->
  exists x, In x (matches r s) /\
            a = mkSuccess (matched x :: captures x) (matched x) (rest x).
Proof.
  simpl. rewrite in_map_iff. intros (x & <- & Hx). now exists x.
Qed.

Lemma exec_consume (r : regex) (s : jsstring) (a : success) :
  exec r s = Some a -> matched a ++ rest a = s /\ matched a <> [].
Proof.
  unfold exec. intros H. apply (matches_consume r s).
  destruct (matches r s); simpl in H; [discriminate|].
  injection H as ->. now left.
Qed.

(** Passing over the matched text brings the scan to the rest. *)
Lemma replaceFrom_skip (r : regex) (tpl : success -> jsstring) :
  forall m s, replaceFrom r tpl (List.length m) (m ++ s) = replaceFrom r tpl 0 s.
Proof.
  induction m as [|c m IH]; intros s; simpl; [reflexivity|apply IH].
Qed.

(** One round of [replace]. *)
Lemma replace_step (r : regex) (tpl : success -> jsstring) (c : N) (s : jsstring) :
  replace r tpl (c :: s) =
  match exec r (c :: s) with
  | Some a => tpl a ++ replace r tpl (rest a)
  | None => c :: replace r tpl s
  end.
Proof.
  unfold replace; simpl.
  destruct (exec r (c :: s)) as [a|] eqn:E; [|reflexivity].
  destruct (exec_consume _ _ _ E) as [Hs Hne].
  destruct (matched a) as [|d m]; [congruence|].
  simpl in Hs. injection Hs as -> <-.
  simpl. now rewrite replaceFrom_skip.
Qed.

End Matcher.

(* ================================================================== *)
(** * Code-unit classes and the classes of the patterns                *)
(* ================================================================== *)

Ltac no_branch t :=
  lazymatch t with
  | context [if _ then _ else _] => fail
  | _ => idtac
  end.

Ltac by_ranges :=
  unfold isAlnum, isLowDig, isUpper, isLower, isDigit, lowerUnit, upperUnit,
    isUpper, isLower, between in *;
  repeat match goal with
         | |- context [N.leb ?a ?b] =>
             no_branch a; no_branch b; destruct (N.leb_spec a b); simpl in *
         end;
  try reflexivity; try discriminate; try lia.

Lemma upper_not_lowdig c : isUpper c = true -> isLowDig c = false.
Proof. by_ranges. Qed.

Lemma lowdig_not_upper c : isLowDig c = true -> isUpper c = false.
Proof. by_ranges. Qed.

Lemma lowdig_alnum c : isLowDig c = true -> isAlnum c = true.
Proof. by_ranges. Qed.

Lemma upper_alnum c : isUpper c = true -> isAlnum c = true.
Proof. by_ranges. Qed.

Lemma digit_lowdig c : isDigit c = true -> isLowDig c = true.
Proof. by_ranges. Qed.

Lemma lowerUnit_lowdig c : isAlnum c = true -> isLowDig (lowerUnit c) = true.
Proof. by_ranges. Qed.

Lemma lowerUnit_fixed c : isUpper c = false -> lowerUnit c = c.
Proof. unfold lowerUnit. now intros ->. Qed.

Lemma upperUnit_fixed c : isLower c = false -> upperUnit c = c.
Proof. unfold upperUnit. now intros ->. Qed.

Lemma class_nonAlnum c :
  noneOf [Range "a" "z"; Range "A" "Z"; Range "0" "9"] c = negb (isAlnum c).
Proof.
  unfold noneOf, oneOf, isAlnum, isLower, isUpper, isDigit; simpl.
  now rewrite orb_false_r, orb_assoc.
Qed.

Lemma class_lowdig c : oneOf [Range "a" "z"; Range "0" "9"] c = isLowDig c.
Proof.
  unfold oneOf, isLowDig, isLower, isDigit; simpl. now rewrite orb_false_r.
Qed.

Lemma class_upper c : oneOf [Range "A" "Z"] c = isUpper c.
Proof. unfold oneOf, isUpper; simpl. now rewrite orb_false_r. Qed.

Lemma whitespace_not_alnum c : isWhiteSpace c = true -> isAlnum c = false.
Proof.
  unfold isWhiteSpace; simpl. rewrite !orb_true_iff, !N.eqb_eq.
  unfold between. rewrite andb_true_iff, !N.leb_le.
  intros H. by_ranges.
Qed.

Lemma class_space_underscore c :
  oneOf [Space; Single "_"] c = true -> isAlnum c = false.
Proof.
  unfold oneOf; simpl. rewrite orb_false_r, orb_true_iff, N.eqb_eq.
  intros [H| ->]; [now apply whitespace_not_alnum|reflexivity].
Qed.

(* ================================================================== *)
(** * split, and the runs it leaves after filter(Boolean)              *)
(* ================================================================== *)

Lemma filter_flush (cur : jsstring) : filter Boolean [rev cur] = flush cur.
Proof.
  destruct cur as [|c cur]; [reflexivity|].
  simpl. now destruct (rev cur).
Qed.

Lemma exec_plus_none (p : N -> bool) (c : N) (s : jsstring) :
  p c = false -> exec (ClassPlus p) (c :: s) = None.
Proof. unfold exec; simpl. now intros ->. Qed.

Lemma exec_plus_in (p : N -> bool) (s : jsstring) (a : success) :
  exec (ClassPlus p) s = Some a -> Forall (fun d => p d = true) (matched a).
Proof.
  unfold exec. intros H.
  assert (Hin : In a (matches (ClassPlus p) s)).
  { destruct (matches (ClassPlus p) s); [discriminate|].
    injection H as ->. now left. }
  simpl in Hin. rewrite in_map_iff in Hin. destruct Hin as [mr [<- Hmr]].
  now apply repeats_sound in Hmr.
Qed.

Lemma exec_plus_some (p : N -> bool) (c : N) (s : jsstring) :
  p c = true ->
  exists a, exec (ClassPlus p) (c :: s) = Some a /\
            Forall (fun d => p d = true) (matched a).
Proof.
  intros Hc. destruct (exec (ClassPlus p) (c :: s)) as [a|] eqn:E.
  - exists a. split; [reflexivity|]. now apply exec_plus_in with (s := c :: s).
  - exfalso. revert E. unfold exec. simpl. rewrite Hc, map_app. simpl.
    match goal with |- context [hd_error (?l ++ _)] => destruct l end;
      discriminate.
Qed.

Section SplitRuns.

Variables (r : regex) (isWord : N -> bool).

Hypothesis exec_word :
  forall c s, isWord c = true -> exec r (c :: s) = None.
Hypothesis exec_sep :
  forall c s, isWord c = false ->
    exists a, exec r (c :: s) = Some a /\
              Forall (fun d => isWord d = false) (matched a).

Lemma splitFrom_runs :
  forall s skip cur,
    (skip <= List.length s)%nat ->
    Forall (fun d => isWord d = false) (firstn skip s) ->
    (skip <> 0%nat -> cur = []) ->
    filter Boolean (splitFrom r skip cur s) = runsFrom isWord cur s.
Proof.
  induction s as [|c s IH]; intros skip cur Hlen Hsep Hcur.
  - simpl. apply filter_flush.
  - destruct skip as [|k].
    + cbn [splitFrom runsFrom]. destruct (isWord c) eqn:Hc.
      * rewrite (exec_word _ s Hc).
        apply IH; [simpl; lia|constructor|congruence].
      * destruct (exec_sep c s Hc) as (a & E & Ha). rewrite E.
        destruct (exec_consume _ _ _ E) as [Hs Hne].
        destruct (matched a) as [|d m]; [congruence|].
        simpl in Hs. injection Hs as -> <-.
        inversion Ha as [|? ? _ Hm]; subst.
        match goal with
        | |- filter _ (?x :: ?l) = _ => change (x :: l) with ([x] ++ l)
        end.
        rewrite filter_app, filter_flush. apply (f_equal (app (flush cur))).
        apply IH; simpl.
        -- rewrite length_app. lia.
        -- rewrite firstn_app, Nat.sub_diag, firstn_all. simpl.
           now rewrite app_nil_r.
        -- reflexivity.
    + rewrite (Hcur (Nat.neq_succ_0 k)).
      simpl in Hsep. inversion Hsep as [|? ? Hc Hk]; subst.
      simpl in Hlen. cbn [splitFrom runsFrom]. rewrite Hc. simpl.
      apply IH; [lia|assumption|reflexivity].
Qed.

Lemma split_runs (s : jsstring) :
  filter Boolean (split r s) = runsFrom isWord [] s.
Proof.
  apply splitFrom_runs; [simpl; lia|constructor|reflexivity].
Qed.

End SplitRuns.

(** ** What the runs are *)

Section Runs.

Variable isWord : N -> bool.

Lemma flush_rev (w : jsstring) : w <> [] -> flush (rev w) = [w].
Proof.
  intros Hw. unfold flush. destruct (rev w) eqn:E.
  - apply (f_equal (@rev N)) in E. rewrite rev_involutive in E. now subst.
  - now rewrite <- E, rev_involutive.
Qed.

Lemma runsFrom_word_app (w : jsstring) :
  Forall (fun d => isWord d = true) w ->
  forall cur s, runsFrom isWord cur (w ++ s) = runsFrom isWord (rev w ++ cur) s.
Proof.
  induction 1 as [|c w Hc _ IH]; intros cur s; [reflexivity|].
  simpl. rewrite Hc, IH. now rewrite <- app_assoc.
Qed.

Lemma runsFrom_seps (s : jsstring) :
  Forall (fun d => isWord d = false) s -> forall cur, runsFrom isWord cur s = flush cur.
Proof.
  induction 1 as [|c s Hc _ IH]; intros cur; [reflexivity|].
  simpl. rewrite Hc, IH. simpl. apply app_nil_r.
Qed.

Lemma runs_sep (c : N) (s : jsstring) :
  isWord c = false -> runsFrom isWord [] (c :: s) = runsFrom isWord [] s.
Proof. intros Hc. simpl. now rewrite Hc. Qed.

Lemma runs_word_sep (w : jsstring) (c : N) (s : jsstring) :
  w <> [] -> Forall (fun d => isWord d = true) w -> isWord c = false ->
  runsFrom isWord [] (w ++ c :: s) = w :: runsFrom isWord [] s.
Proof.
  intros Hne Hw Hc. rewrite runsFrom_word_app by assumption.
  simpl. rewrite Hc, app_nil_r. now rewrite flush_rev.
Qed.

Lemma runs_word (w : jsstring) :
  w <> [] -> Forall (fun d => isWord d = true) w -> runsFrom isWord [] w = [w].
Proof.
  intros Hne Hw. rewrite <- (app_nil_r w) at 1.
  rewrite runsFrom_word_app by assumption. simpl.
  rewrite app_nil_r. now apply flush_rev.
Qed.

Lemma flush_wf (cur : jsstring) :
  Forall (fun d => isWord d = true) cur ->
  Forall (fun w => w <> [] /\ Forall (fun d => isWord d = true) w) (flush cur).
Proof.
  intros H. destruct cur as [|c cur]; constructor; [|constructor].
  split.
  - simpl. now destruct (rev cur).
  - now apply Forall_rev.
Qed.

(** Every run is a non-empty string of word code units. *)
Lemma runsFrom_wf (s : jsstring) :
  forall cur, Forall (fun d => isWord d = true) cur ->
    Forall (fun w => w <> [] /\ Forall (fun d => isWord d = true) w) (runsFrom isWord cur s).
Proof.
  induction s as [|c s IH]; intros cur Hcur; simpl.
  - now apply flush_wf.
  - destruct (isWord c) eqn:Hc.
    + apply IH. now constructor.
    + apply Forall_app. split; [now apply flush_wf|apply IH; constructor].
Qed.

(** The runs, put end to end, are the word code units of the input in
    their order. *)
Lemma runsFrom_concat (s : jsstring) :
  forall cur, List.concat (runsFrom isWord cur s) = rev cur ++ filter isWord s.
Proof.
  assert (Hf : forall cur, List.concat (flush cur) = rev cur).
  { intros [|c cur]; [reflexivity|]. simpl. apply app_nil_r. }
  induction s as [|c s IH]; intros cur; simpl.
  - now rewrite Hf, app_nil_r.
  - destruct (isWord c) eqn:Hc.
    + rewrite IH. simpl. now rewrite <- app_assoc.
    + now rewrite concat_app, Hf, IH.
Qed.

End Runs.

(** ** The two separators of the sources *)

Lemma exec_alt (r1 r2 : regex) (s : jsstring) :
  exec (Alt r1 r2) s =
  match exec r1 s with Some a => Some a | None => exec r2 s end.
Proof. unfold exec; simpl. now destruct (matches r1 s). Qed.

Lemma nonAlnum_word (c : N) (s : jsstring) :
  isAlnum c = true -> exec reNonAlnum (c :: s) = None.
Proof.
  intros Hc. apply exec_plus_none. now rewrite class_nonAlnum, Hc.
Qed.

Lemma nonAlnum_sep (c : N) (s : jsstring) :
  isAlnum c = false ->
  exists a, exec reNonAlnum (c :: s) = Some a /\
            Forall (fun d => isAlnum d = false) (matched a).
Proof.
  intros Hc.
  destruct (exec_plus_some
              (noneOf [Range "a" "z"; Range "A" "Z"; Range "0" "9"]) c s)
    as (a & E & Ha).
  - now rewrite class_nonAlnum, Hc.
  - exists a. split; [exact E|].
    eapply Forall_impl; [|exact Ha].
    intros d Hd. cbv beta in Hd. rewrite class_nonAlnum in Hd.
    now destruct (isAlnum d).
Qed.

Lemma delimiter_word (c : N) (s : jsstring) :
  isAlnum c = true -> exec reDelimiter (c :: s) = None.
Proof.
  intros Hc. unfold reDelimiter. rewrite exec_alt.
  fold reNonAlnum. rewrite (nonAlnum_word c s Hc).
  apply exec_plus_none.
  destruct (oneOf [Space; Single "_"] c) eqn:E; [|reflexivity].
  apply class_space_underscore in E. congruence.
Qed.

Lemma delimiter_sep (c : N) (s : jsstring) :
  isAlnum c = false ->
  exists a, exec reDelimiter (c :: s) = Some a /\
            Forall (fun d => isAlnum d = false) (matched a).
Proof.
  intros Hc. unfold reDelimiter. rewrite exec_alt. fold reNonAlnum.
  destruct (nonAlnum_sep c s Hc) as (a & -> & Ha). now exists a.
Qed.

(** The word list of [camelCase] is the list of maximal alphanumeric
    runs. *)
Lemma camelWords_runs (s : jsstring) : camelWords s = alnumRuns s.
Proof.
  apply split_runs; [apply nonAlnum_word|apply nonAlnum_sep].
Qed.

(** So is what [split] and [filter] leave of the delimiter-aware word
    list: the second alternative of the separator never decides. *)
Lemma delimiter_runs (s : jsstring) :
  filter Boolean (split reDelimiter s) = alnumRuns s.
Proof.
  apply split_runs; [apply delimiter_word|apply delimiter_sep].
Qed.

(* ================================================================== *)
(** * The two replace steps of the delimiter-aware tokenizer           *)
(* ================================================================== *)

Lemma length_ind (P : jsstring -> Prop) :
  (forall s, (forall t, (List.length t < List.length s)%nat -> P t) -> P s) ->
  forall s, P s.
Proof.
  intros step s.
  assert (H : forall n t, (List.length t < n)%nat -> P t).
  { induction n as [|n IH]; intros t Ht; [lia|].
    apply step. intros t' Ht'. apply IH. lia. }
  apply (H (S (List.length s))). lia.
Qed.

(** ** [([a-z0-9])([A-Z])] *)

Lemma exec_pair (p q : N -> bool) (s : jsstring) :
  exec (Seq (Group (Class p)) (Group (Class q))) s =
  match s with
  | a :: b :: t =>
      if p a && q b then Some (mkSuccess [[a]; [b]] [a; b] t) else None
  | _ => None
  end.
Proof.
  unfold exec. destruct s as [|a [|b t]]; simpl; [reflexivity| |].
  - now destruct (p a).
  - destruct (p a); simpl; [|reflexivity]. now destruct (q b).
Qed.

Lemma exec_reCamel (s : jsstring) :
  exec reCamel s =
  match s with
  | a :: b :: t =>
      if isLowDig a && isUpper b
      then Some (mkSuccess [[a]; [b]] [a; b] t) else None
  | _ => None
  end.
Proof.
  unfold reCamel. rewrite exec_pair.
  destruct s as [|a [|b t]]; try reflexivity.
  now rewrite class_lowdig, class_upper.
Qed.

Lemma insertWhere_cons (here : jsstring -> bool) (c : N) (s : jsstring) :
  insertWhere here (c :: s) =
  c :: (if here (c :: s) then [cu " "] else []) ++ insertWhere here s.
Proof. reflexivity. Qed.

Lemma lowerUpperBoundary_upper (b : N) (t : jsstring) :
  isUpper b = true -> lowerUpperBoundary (b :: t) = false.
Proof.
  intros Hb. destruct t as [|c t]; [reflexivity|].
  simpl. now rewrite (upper_not_lowdig b Hb).
Qed.

(** Step 1 puts a space between every lower-case letter or digit and an
    upper-case letter right after it, and nowhere else. *)
Lemma camelStep_boundaries (s : jsstring) :
  camelStep s = insertWhere lowerUpperBoundary s.
Proof.
  induction s as [s IH] using length_ind.
  destruct s as [|a s]; [reflexivity|].
  unfold camelStep in *. rewrite replace_step, exec_reCamel.
  destruct s as [|b t].
  - reflexivity.
  - rewrite (insertWhere_cons _ a).
    change (lowerUpperBoundary (a :: b :: t)) with (isLowDig a && isUpper b).
    destruct (isLowDig a && isUpper b) eqn:E.
    + apply andb_true_iff in E. destruct E as [_ Hb].
      cbn [rest]. rewrite (IH t) by (simpl; lia).
      rewrite (insertWhere_cons _ b), (lowerUpperBoundary_upper b t Hb).
      reflexivity.
    + rewrite (IH (b :: t)) by (simpl; lia). reflexivity.
Qed.

(** ** [([A-Z]+)([A-Z][a-z0-9]+)] *)

Section AcronymPattern.

Variables up low : N -> bool.

Lemma repeats_single (p : N -> bool) (c : N) (s : jsstring) :
  p c = true -> In ([c], s) (repeats p (c :: s)).
Proof.
  intros Hc. simpl. rewrite Hc. apply in_or_app. right. now left.
Qed.

(** Any success of the pattern is one or more [up], then one [up] and one
    or more [low]; the first capture is the leading [up]s. *)
Lemma acronymShape_sound (s : jsstring) (a : success) :
  In a (matches (acronymShape up low) s) ->
  exists U u L,
    U <> [] /\ Forall (fun d => up d = true) U /\ up u = true /\
    L <> [] /\ Forall (fun d => low d = true) L /\
    captures a = [U; u :: L] /\ matched a = U ++ u :: L /\
    s = U ++ u :: L ++ rest a.
Proof.
  unfold acronymShape. intros H.
  apply in_matches_seq in H. destruct H as (x & y & Hx & Hy & ->).
  apply in_matches_group in Hx. destruct Hx as (x0 & Hx0 & ->).
  apply in_matches_plus in Hx0. destruct Hx0 as (U & r1 & HU & ->).
  apply repeats_sound in HU. cbn [fst snd] in HU.
  destruct HU as (Es & HUne & HUup).
  cbn [rest captures matched] in *.
  apply in_matches_group in Hy. destruct Hy as (y0 & Hy0 & ->).
  apply in_matches_seq in Hy0. destruct Hy0 as (z & w & Hz & Hw & ->).
  apply in_matches_class in Hz. destruct Hz as (u & r2 & -> & Hu & ->).
  cbn [rest captures matched] in *.
  apply in_matches_plus in Hw. destruct Hw as (L & r3 & HL & ->).
  apply repeats_sound in HL. cbn [fst snd] in HL.
  destruct HL as (Er & HLne & HLlow).
  exists U, u, L. cbn.
  repeat (split; [assumption || reflexivity|]).
  now rewrite <- Es, <- Er.
Qed.

(** At two [up]s and a [low] the pattern matches. *)
Lemma acronymShape_complete (a b c : N) (t : jsstring) :
  up a = true -> up b = true -> low c = true ->
  exec (acronymShape up low) (a :: b :: c :: t) <> None.
Proof.
  intros Ha Hb Hc.
  assert (Hin : In (mkSuccess [[a]; [b; c]] [a; b; c] t)
                   (matches (acronymShape up low) (a :: b :: c :: t))).
  { unfold acronymShape. cbn [matches].
    apply in_flat_map.
    exists (mkSuccess [[a]] [a] (b :: c :: t)). split.
    - apply in_map_iff. exists (mkSuccess [] [a] (b :: c :: t)).
      split; [reflexivity|].
      apply in_map_iff. exists ([a], b :: c :: t).
      split; [reflexivity|now apply repeats_single].
    - cbn [rest captures matched].
      apply in_map_iff. exists (mkSuccess [[b; c]] [b; c] t).
      split; [reflexivity|].
      apply in_map_iff. exists (mkSuccess [] [b; c] t).
      split; [reflexivity|].
      apply in_flat_map. exists (mkSuccess [] [b] (c :: t)). split.
      + cbn [matches]. rewrite Hb. now left.
      + cbn [rest captures matched].
        apply in_map_iff. exists (mkSuccess [] [c] t).
        split; [reflexivity|].
        apply in_map_iff. exists ([c], t).
        split; [reflexivity|now apply repeats_single]. }
  unfold exec. destruct (matches (acronymShape up low) (a :: b :: c :: t));
    [destruct Hin|discriminate].
Qed.

End AcronymPattern.

Lemma reAcronym_shape :
  reAcronym =
  acronymShape (oneOf [Range "A" "Z"]) (oneOf [Range "a" "z"; Range "0" "9"]).
Proof. reflexivity. Qed.

(** What step 2 finds at a position where it matches, and what the
    template makes of it. *)
Lemma exec_reAcronym_some (s : jsstring) (a : success) :
  exec reAcronym s = Some a ->
  exists U u L,
    U <> [] /\ Forall (fun d => isUpper d = true) U /\ isUpper u = true /\
    L <> [] /\ Forall (fun d => isLowDig d = true) L /\
    dollar1_space_dollar2 a = U ++ cu " " :: u :: L /\
    s = U ++ u :: L ++ rest a.
Proof.
  intros E.
  assert (Hin : In a (matches reAcronym s)).
  { unfold exec in E. destruct (matches reAcronym s); [discriminate|].
    injection E as ->. now left. }
  rewrite reAcronym_shape in Hin. apply acronymShape_sound in Hin.
  destruct Hin as (U & u & L & HUne & HU & Hu & HLne & HL & Hc & _ & Hs).
  exists U, u, L.
  rewrite class_upper in Hu.
  repeat split; try assumption.
  - eapply Forall_impl; [|exact HU].
    intros d Hd. cbv beta in Hd. now rewrite class_upper in Hd.
  - eapply Forall_impl; [|exact HL].
    intros d Hd. cbv beta in Hd. now rewrite class_lowdig in Hd.
  - unfold dollar1_space_dollar2, capture. now rewrite Hc.
Qed.

Lemma exec_reAcronym_none (s : jsstring) :
  exec reAcronym s = None -> acronymBoundary s = false.
Proof.
  intros E. destruct s as [|a [|b [|c t]]]; try reflexivity.
  cbn [acronymBoundary].
  destruct (isUpper a) eqn:Ha; [|reflexivity].
  destruct (isUpper b) eqn:Hb; [|reflexivity].
  destruct (isLowDig c) eqn:Hc; [|reflexivity].
  exfalso. revert E. rewrite reAcronym_shape.
  apply acronymShape_complete;
    now rewrite ?class_upper, ?class_lowdig.
Qed.

Lemma acronymBoundary_not_upper (c : N) (t : jsstring) :
  isUpper c = false -> acronymBoundary (c :: t) = false.
Proof.
  intros Hc. destruct t as [|b [|d t]]; try reflexivity.
  cbn [acronymBoundary]. now rewrite Hc.
Qed.

Lemma acronymBoundary_upper_low (a b : N) (t : jsstring) :
  isUpper b = false -> acronymBoundary (a :: b :: t) = false.
Proof.
  intros Hb. destruct t as [|d t]; [reflexivity|].
  cbn [acronymBoundary]. rewrite Hb. now rewrite andb_false_r.
Qed.

Lemma acronymBoundary_upper3 (a b c : N) (t : jsstring) :
  isUpper c = true -> acronymBoundary (a :: b :: c :: t) = false.
Proof.
  intros Hc. cbn [acronymBoundary].
  rewrite (upper_not_lowdig c Hc). apply andb_false_r.
Qed.

Lemma insertWhere_acronym_low (L r : jsstring) :
  Forall (fun d => isLowDig d = true) L ->
  insertWhere acronymBoundary (L ++ r) = L ++ insertWhere acronymBoundary r.
Proof.
  induction 1 as [|c L Hc _ IH]; [reflexivity|].
  rewrite <- app_comm_cons, insertWhere_cons.
  rewrite acronymBoundary_not_upper by now apply lowdig_not_upper.
  simpl. now rewrite IH.
Qed.

(** On an acronym match the reference puts its one space where the
    template does. *)
Lemma insertWhere_acronym_match (U : jsstring) (u : N) (L r : jsstring) :
  U <> [] -> Forall (fun d => isUpper d = true) U -> isUpper u = true ->
  L <> [] -> Forall (fun d => isLowDig d = true) L ->
  insertWhere acronymBoundary (U ++ u :: L ++ r) =
  U ++ cu " " :: u :: L ++ insertWhere acronymBoundary r.
Proof.
  intros HUne HU Hu HLne HL.
  destruct L as [|l L]; [congruence|].
  inversion HL as [|? ? Hl HL']; subst.
  induction U as [|a U IH]; [congruence|].
  inversion HU as [|? ? Ha HU']; subst.
  destruct U as [|a' U].
  - cbn [app]. rewrite insertWhere_cons.
    cbn [acronymBoundary]. rewrite Ha, Hu, Hl. cbn [andb app].
    rewrite insertWhere_cons.
    rewrite acronymBoundary_upper_low by now apply lowdig_not_upper.
    cbn [app]. do 3 f_equal.
    now apply (insertWhere_acronym_low (l :: L) r).
  - rewrite <- app_comm_cons, insertWhere_cons.
    assert (Hb : acronymBoundary (a :: (a' :: U) ++ u :: (l :: L) ++ r) = false).
    { inversion HU' as [|? ? _ HU'']; subst.
      destruct U as [|a'' U]; cbn [app].
      - now apply acronymBoundary_upper3.
      - inversion HU'' as [|? ? Ha'' _]; subst.
        now apply acronymBoundary_upper3. }
    rewrite Hb. cbn [app]. f_equal.
    exact (IH ltac:(discriminate) HU').
Qed.

(** Step 2 puts a space after every upper-case letter that an upper-case
    letter and a lower-case letter or digit follow, and nowhere else. *)
Lemma acronymStep_boundaries (s : jsstring) :
  acronymStep s = insertWhere acronymBoundary s.
Proof.
  induction s as [s IH] using length_ind.
  destruct s as [|c s]; [reflexivity|].
  unfold acronymStep in *. rewrite replace_step.
  destruct (exec reAcronym (c :: s)) as [a|] eqn:E.
  - destruct (exec_reAcronym_some _ _ E)
      as (U & u & L & HUne & HU & Hu & HLne & HL & -> & Hs).
    rewrite IH.
    + rewrite Hs, insertWhere_acronym_match by assumption.
      now rewrite <- app_assoc.
    + rewrite Hs. rewrite !length_app. simpl. rewrite length_app.
      destruct U; [congruence|simpl; lia].
  - rewrite insertWhere_cons, (exec_reAcronym_none _ E).
    rewrite IH by (simpl; lia). reflexivity.
Qed.

(* ================================================================== *)
(** * Words, joins and case                                            *)
(* ================================================================== *)

Lemma camelWords_wf (s : jsstring) :
  Forall (fun w => w <> [] /\ Forall (fun d => isAlnum d = true) w)
         (camelWords s).
Proof. rewrite camelWords_runs. apply runsFrom_wf. constructor. Qed.

(** The delimiter-aware word list: the alphanumeric runs of the input
    after the two boundary steps. *)
Lemma delimitedWords_runs (s : jsstring) :
  delimitedWords s =
  alnumRuns (insertWhere acronymBoundary (insertWhere lowerUpperBoundary s)).
Proof.
  unfold delimitedWords.
  now rewrite delimiter_runs, camelStep_boundaries, acronymStep_boundaries.
Qed.

Lemma delimitedWords_wf (s : jsstring) :
  Forall (fun w => w <> [] /\ Forall (fun d => isAlnum d = true) w)
         (delimitedWords s).
Proof. rewrite delimitedWords_runs. apply runsFrom_wf. constructor. Qed.

(** Where there is no upper-case letter neither step inserts anything. *)
Lemma insertWhere_lowerUpper_id (s : jsstring) :
  Forall (fun d => isUpper d = false) s ->
  insertWhere lowerUpperBoundary s = s.
Proof.
  induction 1 as [|c s Hc Hs IH]; [reflexivity|].
  rewrite insertWhere_cons, IH.
  destruct Hs as [|b t Hb _]; [reflexivity|].
  cbn [lowerUpperBoundary]. now rewrite Hb, andb_false_r.
Qed.

Lemma insertWhere_acronym_id (s : jsstring) :
  Forall (fun d => isUpper d = false) s ->
  insertWhere acronymBoundary s = s.
Proof.
  induction 1 as [|c s Hc Hs IH]; [reflexivity|].
  rewrite insertWhere_cons, IH.
  now rewrite acronymBoundary_not_upper.
Qed.

Lemma delimitedWords_no_upper (s : jsstring) :
  Forall (fun d => isUpper d = false) s -> delimitedWords s = alnumRuns s.
Proof.
  intros H. rewrite delimitedWords_runs.
  now rewrite insertWhere_lowerUpper_id, insertWhere_acronym_id.
Qed.

Lemma toLowerCase_lowWord (w : jsstring) :
  w <> [] /\ Forall (fun d => isAlnum d = true) w -> lowWord (toLowerCase w).
Proof.
  intros [Hne Hw]. split.
  - destruct w; [congruence|discriminate].
  - unfold toLowerCase. apply Forall_map.
    eapply Forall_impl; [|exact Hw]. intros d. apply lowerUnit_lowdig.
Qed.

Lemma toLowerCase_fixed (w : jsstring) :
  Forall (fun d => isUpper d = false) w -> toLowerCase w = w.
Proof.
  induction 1 as [|c w Hc _ IH]; [reflexivity|].
  simpl. now rewrite (lowerUnit_fixed c Hc), IH.
Qed.

Lemma toUpperCase_fixed (w : jsstring) :
  Forall (fun d => isLower d = false) w -> toUpperCase w = w.
Proof.
  induction 1 as [|c w Hc _ IH]; [reflexivity|].
  simpl. now rewrite (upperUnit_fixed c Hc), IH.
Qed.

Lemma lowered_words (ws : list jsstring) :
  Forall (fun w => w <> [] /\ Forall (fun d => isAlnum d = true) w) ws ->
  Forall lowWord (map toLowerCase ws).
Proof.
  intros H. apply Forall_map.
  eapply Forall_impl; [|exact H]. intros w. apply toLowerCase_lowWord.
Qed.

Lemma lowWords_fixed (ws : list jsstring) :
  Forall lowWord ws -> map toLowerCase ws = ws.
Proof.
  induction 1 as [|w ws [_ Hw] _ IH]; [reflexivity|].
  simpl. rewrite IH. f_equal. apply toLowerCase_fixed.
  eapply Forall_impl; [|exact Hw]. intros d. apply lowdig_not_upper.
Qed.

(** ** join *)

Lemma join_cons2 (sep w w' : jsstring) (ws : list jsstring) :
  join sep (w :: w' :: ws) = w ++ sep ++ join sep (w' :: ws).
Proof. reflexivity. Qed.

Lemma join_nil_concat (ws : list jsstring) : join [] ws = List.concat ws.
Proof.
  induction ws as [|w [|w' ws] IH]; [reflexivity|simpl; now rewrite app_nil_r|].
  rewrite join_cons2, IH. reflexivity.
Qed.

(** Tokenizing a join of lower-cased words gives the words back. *)
Lemma runs_join (c : N) (ws : list jsstring) :
  isAlnum c = false -> Forall lowWord ws -> alnumRuns (join [c] ws) = ws.
Proof.
  intros Hc. unfold alnumRuns.
  induction 1 as [|w ws [Hne Hw] Hws IH]; [reflexivity|].
  assert (Hw' : Forall (fun d => isAlnum d = true) w).
  { eapply Forall_impl; [|exact Hw]. intros d. apply lowdig_alnum. }
  destruct ws as [|w' ws].
  - now apply runs_word.
  - rewrite join_cons2. cbn [app].
    rewrite runs_word_sep by assumption. now rewrite IH.
Qed.

Lemma join_no_upper (c : N) (ws : list jsstring) :
  isUpper c = false -> Forall lowWord ws ->
  Forall (fun d => isUpper d = false) (join [c] ws).
Proof.
  intros Hc. induction 1 as [|w ws [_ Hw] Hws IH]; [constructor|].
  assert (Hw' : Forall (fun d => isUpper d = false) w).
  { eapply Forall_impl; [|exact Hw]. intros d. apply lowdig_not_upper. }
  destruct ws as [|w' ws]; [exact Hw'|].
  rewrite join_cons2. apply Forall_app. split; [exact Hw'|].
  cbn [app]. now constructor.
Qed.

(** Words hold no dot, so swapping the separator is swapping the dots. *)
Lemma dotsToHyphens_word (w : jsstring) :
  Forall (fun d => isLowDig d = true) w -> dotsToHyphens w = w.
Proof.
  induction 1 as [|c w Hc _ IH]; [reflexivity|].
  change (dotsToHyphens (c :: w))
    with ((if N.eqb c (cu ".") then cu "-" else c) :: dotsToHyphens w).
  rewrite IH.
  destruct (N.eqb_spec c (cu ".")) as [->|_]; [discriminate Hc|reflexivity].
Qed.

Lemma dotsToHyphens_join (ws : list jsstring) :
  Forall lowWord ws ->
  dotsToHyphens (join [cu "."] ws) = join [cu "-"] ws.
Proof.
  induction 1 as [|w ws [_ Hw] Hws IH]; [reflexivity|].
  destruct ws as [|w' ws]; [now apply dotsToHyphens_word|].
  rewrite !join_cons2.
  assert (Happ : forall a b, dotsToHyphens (a ++ b) =
                             dotsToHyphens a ++ dotsToHyphens b)
    by (intros; apply map_app).
  rewrite !Happ, IH, dotsToHyphens_word by assumption. reflexivity.
Qed.

(** Tokenizing the output of [dotCase] or [toKebabCase] again. *)
Lemma delimitedWords_join (c : N) (ws : list jsstring) :
  isAlnum c = false -> Forall lowWord ws ->
  delimitedWords (join [c] ws) = ws.
Proof.
  intros Hc Hws. rewrite delimitedWords_no_upper.
  - now apply runs_join.
  - apply join_no_upper; [|assumption].
    destruct (isUpper c) eqn:E; [|reflexivity].
    apply upper_alnum in E. congruence.
Qed.

Lemma strictEq_spec (s t : jsstring) : strictEq s t = true <-> s = t.
Proof.
  revert t; induction s as [|c s IH]; intros [|d t]; simpl;
    try (split; [discriminate|discriminate]); [tauto|].
  rewrite andb_true_iff, N.eqb_eq, IH.
  split; [intros [-> ->]; reflexivity|intros [= -> ->]; now split].
Qed.

Lemma camelWord_rule (w : jsstring) (i : nat) : camelRule i w (camelWord w i).
Proof.
  unfold camelWord.
  destruct (strictEq w (toUpperCase w)) eqn:E.
  - apply strictEq_spec in E. symmetry in E.
    destruct i; [now apply rule_acronym_first|now apply rule_acronym_later].
  - assert (Hne : toUpperCase w <> w).
    { intros H. symmetry in H. apply strictEq_spec in H. congruence. }
    destruct i; cbn [Nat.eqb].
    + now apply rule_word_first.
    + replace (toUpperCase (charAt0 w) ++ toLowerCase (slice1 w))
        with (capitalize w) by (now destruct w).
      now apply rule_word_later.
Qed.

Lemma mapFrom_rules (ws : list jsstring) :
  forall i, camelRules i ws (mapFrom camelWord i ws).
Proof.
  induction ws as [|w ws IH]; intros i; simpl; constructor.
  - apply camelWord_rule.
  - apply IH.
Qed.

Lemma camelCase_string (s : jsstring) :
  camelCase (VString s) = Return (List.concat (mapi camelWord (camelWords s))).
Proof.
  unfold camelCase. destruct (camelWords s) as [|w ws]; [reflexivity|].
  cbn [List.length Nat.eqb]. now rewrite join_nil_concat.
Qed.

Lemma digit_not_lower c : isDigit c = true -> isLower c = false.
Proof. by_ranges. Qed.

Lemma upper_not_lower c : isUpper c = true -> isLower c = false.
Proof. by_ranges. Qed.

Lemma nonalnum_not_upper c : isAlnum c = false -> isUpper c = false.
Proof. by_ranges. Qed.

(* ================================================================== *)
(** * The examples the sources document                                *)
(* ================================================================== *)

Example camelCase_documented :
  camelCase (VString (lit "Andy Nguyen AWS")) = Return (lit "andyNguyenAWS") /\
  camelCase (VString (lit "andy_nguyen+AWS")) = Return (lit "andyNguyenAWS") /\
  camelCase (VString (lit "API_response_data")) = Return (lit "apiResponseData") /\
  camelCase VNull = Return [] /\ camelCase VUndefined = Return [].
Proof. repeat split; vm_compute; reflexivity. Qed.

Example dotCase_documented :
  dotCase (VString (lit "Andy Nguyen AWS")) = Return (lit "andy.nguyen.aws") /\
  dotCase (VString (lit "andy_nguyen+AWS")) = Return (lit "andy.nguyen.aws") /\
  dotCase (VString (lit "API_response_data")) = Return (lit "api.response.data") /\
  dotCase VNull = Return [] /\ dotCase VUndefined = Return [].
Proof. repeat split; vm_compute; reflexivity. Qed.

Example toKebabCase_documented :
  toKebabCase (VString (lit "Andy Nguyen AWS")) = Return (lit "andy-nguyen-aws") /\
  toKebabCase (VString (lit "andy_nguyen+AWS")) = Return (lit "andy-nguyen-aws") /\
  toKebabCase (VString (lit "API_response_data")) = Return (lit "api-response-data") /\
  toKebabCase VNull = Return [] /\ toKebabCase VUndefined = Return [].
Proof. repeat split; vm_compute; reflexivity. Qed.

Example simplified_toKebabCase_documented :
  ChainPrompt.toKebabCase (VString (lit "Andy Nguyen AWS"))
    = Return (lit "andy-nguyen-aws") /\
  ChainPrompt.toKebabCase (VString (lit "andy_nguyen+AWS"))
    = Return (lit "andy-nguyen-aws").
Proof. repeat split; vm_compute; reflexivity. Qed.

(* ================================================================== *)
(** * The claims                                                       *)
(* ================================================================== *)

(** C1. For each of camelCase, dotCase and the delimiter-aware
    toKebabCase: an absent argument ([undefined] or [null]) returns the
    empty string; any other argument that is not a string throws the
    invalid-input error; a string argument does neither and is passed on
    to the tokenizer and joiner, so those are the only failures and the
    only results decided by the validation step. *)
Theorem validation_of_absent_and_non_text :
  validates camelCase
    (fun s => List.concat (mapi camelWord (camelWords s))) /\
  validates dotCase
    (fun s => join [cu "."] (map toLowerCase (delimitedWords s))) /\
  validates toKebabCase
    (fun s => join [cu "-"] (map toLowerCase (delimitedWords s))).
Proof.
  assert (H : forall (f : value -> completion) body,
             f VUndefined = Return [] -> f VNull = Return [] ->
             (forall b, f (VBoolean b) = Throw Part000.invalidInput) ->
             (forall n, f (VNumber n) = Throw Part000.invalidInput) ->
             f VObject = Throw Part000.invalidInput ->
             (forall s, f (VString s) = Return (body s)) ->
             validates f body).
  { intros f body Hu Hn Hb Hz Ho Hs. unfold validates, absent.
    split; [|split].
    - now intros v [-> | ->].
    - intros [| |b|n|s|] Ha Ht; auto; exfalso; [tauto|tauto|now apply Ht].
    - intros [| |b|n|s|] Ht; try discriminate Ht. exists s. now split. }
  split; [|split]; apply H; try reflexivity.
  exact camelCase_string.
Qed.

Lemma validation_of_absent_and_non_text_witness :
  camelCase VUndefined = Return [] /\
  dotCase (VNumber 5) = Throw Part000.invalidInput /\
  exists s, VString (lit "a b") = VString s /\
            toKebabCase (VString (lit "a b"))
            = Return (join [cu "-"] (map toLowerCase (delimitedWords s))).
Proof.
  destruct validation_of_absent_and_non_text
    as ((Hc & _) & (_ & Hd & _) & (_ & _ & Hk)).
  split; [|split].
  - apply Hc. left. reflexivity.
  - apply Hd; [intros [H|H]; discriminate H|discriminate].
  - apply Hk. reflexivity.
Defined.

(** C2. For every string input camelCase returns its word tokens joined
    with no separator after the casing rule: the word at index 0 is
    lower-cased; a later word equal to its own upper-case form is kept
    verbatim; any other later word has its first character capitalized and
    the rest lower-cased.  A single upper-case letter and an all-digit
    token equal their upper-case form.  camelCase("Andy Nguyen AWS") is
    "andyNguyenAWS". *)
Theorem camelCase_word_rule :
  (forall s, exists os,
      camelRules 0 (camelWords s) os /\
      camelCase (VString s) = Return (List.concat os)) /\
  (forall c, isUpper c = true -> toUpperCase [c] = [c]) /\
  (forall w, Forall (fun d => isDigit d = true) w -> toUpperCase w = w) /\
  camelCase (VString (lit "Andy Nguyen AWS")) = Return (lit "andyNguyenAWS").
Proof.
  split; [|split; [|split]].
  - intros s. exists (mapi camelWord (camelWords s)). split.
    + apply mapFrom_rules.
    + apply camelCase_string.
  - intros c Hc. apply toUpperCase_fixed. constructor; [|constructor].
    now apply upper_not_lower.
  - intros w Hw. apply toUpperCase_fixed.
    eapply Forall_impl; [|exact Hw]. intros d. apply digit_not_lower.
  - vm_compute. reflexivity.
Qed.

Lemma camelCase_word_rule_witness :
  toUpperCase [cu "A"] = [cu "A"] /\ toUpperCase (lit "2023") = lit "2023".
Proof.
  destruct camelCase_word_rule as (_ & Hc & Hd & _).
  split.
  - apply Hc. reflexivity.
  - apply Hd. repeat constructor.
Defined.

(** What step 2 does to one or more upper-case letters, an upper-case
    letter and one or more lower-case letters or digits. *)
Lemma acronymStep_run (U : jsstring) (u : N) (L : jsstring) :
  U <> [] -> Forall (fun d => isUpper d = true) U -> isUpper u = true ->
  L <> [] -> Forall (fun d => isLowDig d = true) L ->
  acronymStep (U ++ u :: L) = U ++ cu " " :: u :: L.
Proof.
  intros HUne HU Hu HLne HL.
  rewrite acronymStep_boundaries.
  rewrite <- (app_nil_r L) at 1.
  rewrite insertWhere_acronym_match by assumption.
  simpl. now rewrite app_nil_r.
Qed.

(** C3, as stated, fails on the code: a single upper-case letter in front
    of an upper-case letter and a lower-case letter does get a boundary
    after it.  "ABc" becomes "A Bc" in step 2 and tokenizes as "A", "Bc". *)
Lemma single_upper_before_pair_counterexample :
  acronymStep (lit "ABc") = lit "A Bc" /\
  delimitedWords (lit "ABc") = [lit "A"; lit "Bc"] /\
  ~ (forall a b c,
        isUpper a = true -> isUpper b = true -> isLowDig c = true ->
        acronymStep [a; b; c] = [a; b; c]).
Proof.
  split; [vm_compute; reflexivity|].
  split; [vm_compute; reflexivity|].
  intros H.
  specialize (H (cu "A") (cu "B") (cu "c") eq_refl eq_refl eq_refl).
  vm_compute in H. discriminate H.
Qed.

(** C3, amended.  In the delimiter-aware tokenizer the acronym-boundary
    step inserts a boundary exactly after every upper-case letter that is
    followed by an upper-case letter and a lower-case letter or digit: so
    between a run of one or more upper-case letters and the following
    upper-case-plus-lower-case/digit pair.  "AWSFoo" tokenizes as "AWS",
    "Foo", and a single upper-case letter in front of such a pair gets a
    boundary after it too: "ABc" tokenizes as "A", "Bc". *)
Theorem acronym_step_boundaries :
  (forall s, acronymStep s = insertWhere acronymBoundary s) /\
  (forall U u L,
      U <> [] -> Forall (fun d => isUpper d = true) U -> isUpper u = true ->
      L <> [] -> Forall (fun d => isLowDig d = true) L ->
      acronymStep (U ++ u :: L) = U ++ cu " " :: u :: L) /\
  delimitedWords (lit "AWSFoo") = [lit "AWS"; lit "Foo"] /\
  delimitedWords (lit "ABc") = [lit "A"; lit "Bc"].
Proof.
  split; [exact acronymStep_boundaries|].
  split; [exact acronymStep_run|].
  split; vm_compute; reflexivity.
Qed.

Lemma acronym_step_boundaries_witness :
  acronymStep (lit "A" ++ cu "B" :: lit "c") = lit "A" ++ cu " " :: cu "B" :: lit "c".
Proof.
  destruct acronym_step_boundaries as (_ & H & _).
  apply H.
  - discriminate.
  - repeat constructor.
  - reflexivity.
  - discriminate.
  - repeat constructor.
Defined.

(** C4, as stated, fails on the code: the trailing class of step 2 is
    [a-z0-9], digits included, so "AWS2" is split by step 2 into
    "AW S2", and dotCase("AWS2") is "aw.s2". *)
Lemma upper_run_then_digits_counterexample :
  acronymStep (lit "AWS2") = lit "AW S2" /\
  dotCase (VString (lit "AWS2")) = Return (lit "aw.s2") /\
  ~ (forall U u D,
        U <> [] -> Forall (fun d => isUpper d = true) U -> isUpper u = true ->
        D <> [] -> Forall (fun d => isDigit d = true) D ->
        acronymStep (U ++ u :: D) = U ++ u :: D).
Proof.
  split; [vm_compute; reflexivity|].
  split; [vm_compute; reflexivity|].
  intros H.
  specialize (H (lit "AW") (cu "S") (lit "2")).
  assert (E : acronymStep (lit "AW" ++ cu "S" :: lit "2")
              = lit "AW" ++ cu "S" :: lit "2").
  { apply H; try discriminate; try reflexivity; repeat constructor. }
  vm_compute in E. discriminate E.
Qed.

(** C4, amended.  Digits take part in both boundary steps.  Step 1 puts a
    boundary between a digit and an upper-case letter after it.  The
    trailing class of step 2 is lower-case letters and digits, so a run of
    upper-case letters followed by an upper-case letter and only digits is
    split by step 2 in front of that last upper-case letter: "AWS2"
    becomes "AW S2". *)
Theorem digits_in_both_boundary_steps :
  (forall s, camelStep s = insertWhere lowerUpperBoundary s) /\
  (forall d u t, isDigit d = true -> isUpper u = true ->
                 lowerUpperBoundary (d :: u :: t) = true) /\
  (forall U u D,
      U <> [] -> Forall (fun d => isUpper d = true) U -> isUpper u = true ->
      D <> [] -> Forall (fun d => isDigit d = true) D ->
      acronymStep (U ++ u :: D) = U ++ cu " " :: u :: D) /\
  acronymStep (lit "AWS2") = lit "AW S2".
Proof.
  split; [exact camelStep_boundaries|].
  split; [|split].
  - intros d u t Hd Hu. cbn [lowerUpperBoundary].
    now rewrite (digit_lowdig d Hd), Hu.
  - intros U u D HUne HU Hu HDne HD.
    apply acronymStep_run; try assumption.
    eapply Forall_impl; [|exact HD]. intros d. apply digit_lowdig.
  - vm_compute. reflexivity.
Qed.

Lemma digits_in_both_boundary_steps_witness :
  lowerUpperBoundary (cu "2" :: cu "A" :: []) = true /\
  acronymStep (lit "AW" ++ cu "S" :: lit "2") = lit "AW" ++ cu " " :: cu "S" :: lit "2".
Proof.
  destruct digits_in_both_boundary_steps as (_ & H1 & H2 & _).
  split.
  - apply H1; reflexivity.
  - apply H2.
    + discriminate.
    + repeat constructor.
    + reflexivity.
    + discriminate.
    + repeat constructor.
Defined.

(** C5. dotCase and the delimiter-aware toKebabCase are idempotent: on
    every string each returns a string on which it returns that same
    string. *)
Theorem dotCase_toKebabCase_idempotent (s : jsstring) :
  (exists r, dotCase (VString s) = Return r /\
             dotCase (VString r) = Return r) /\
  (exists r, toKebabCase (VString s) = Return r /\
             toKebabCase (VString r) = Return r).
Proof.
  pose proof (lowered_words _ (delimitedWords_wf s)) as Hws.
  split; eexists; (split; [reflexivity|]); cbn [dotCase toKebabCase];
    rewrite delimitedWords_join by (assumption || reflexivity);
    now rewrite lowWords_fixed.
Qed.

(** C6. The simplified toKebabCase of chain_prompt.js gives
    "andy-nguyen-aws" on "andy_nguyen+AWS" and "andynguyenaws" on
    "andyNguyenAWS", where the delimiter-aware toKebabCase gives
    "andy-nguyen-aws": the two disagree on some input. *)
Theorem simplified_kebab_examples :
  ChainPrompt.toKebabCase (VString (lit "andy_nguyen+AWS"))
    = Return (lit "andy-nguyen-aws") /\
  ChainPrompt.toKebabCase (VString (lit "andyNguyenAWS"))
    = Return (lit "andynguyenaws") /\
  Part000.toKebabCase (VString (lit "andyNguyenAWS"))
    = Return (lit "andy-nguyen-aws") /\
  ChainPrompt.toKebabCase (VString (lit "andyNguyenAWS"))
    <> Part000.toKebabCase (VString (lit "andyNguyenAWS")) /\
  exists v, ChainPrompt.toKebabCase v <> Part000.toKebabCase v.
Proof.
  split; [vm_compute; reflexivity|].
  split; [vm_compute; reflexivity|].
  split; [vm_compute; reflexivity|].
  split; [|exists (VString (lit "andyNguyenAWS"))]; vm_compute; discriminate.
Qed.

(** C7. The simplified toKebabCase throws its invalid-input error on
    every argument that is not a string, [null] and [undefined] included:
    it never returns the empty string, or any string, for absent input. *)
Theorem simplified_kebab_rejects_non_text :
  (forall v, typeof v <> TString ->
             ChainPrompt.toKebabCase v = Throw ChainPrompt.invalidInput) /\
  ChainPrompt.toKebabCase VNull = Throw ChainPrompt.invalidInput /\
  ChainPrompt.toKebabCase VUndefined = Throw ChainPrompt.invalidInput /\
  (forall v r, absent v -> ChainPrompt.toKebabCase v <> Return r).
Proof.
  split; [|split; [reflexivity|split; [reflexivity|]]].
  - intros [| |b|n|s|] H; try reflexivity. now elim H.
  - intros v r [-> | ->]; discriminate.
Qed.

Lemma simplified_kebab_rejects_non_text_witness :
  ChainPrompt.toKebabCase (VNumber 42) = Throw ChainPrompt.invalidInput /\
  ChainPrompt.toKebabCase VNull <> Return [].
Proof.
  destruct simplified_kebab_rejects_non_text as (H1 & _ & _ & H2).
  split.
  - apply H1. discriminate.
  - apply H2. right. reflexivity.
Defined.

(** C8. camelCase tokenizes every string by splitting solely on maximal
    runs of non-alphanumeric code units.  Its word list is the list of
    maximal alphanumeric runs: a separator in front is dropped, a
    non-empty alphanumeric run up to a separator or to the end is one
    word, so runs such as "nguyen2023" and "AWS" stay whole; the words,
    in order, make up the alphanumeric code units of the input; and no
    word is empty, whatever separators are repeated, leading or
    trailing. *)
Theorem camelCase_tokenizer_runs :
  (forall s, camelWords s = alnumRuns s) /\
  camelWords [] = [] /\
  (forall c s, isAlnum c = false -> camelWords (c :: s) = camelWords s) /\
  (forall w, w <> [] -> Forall (fun d => isAlnum d = true) w ->
             camelWords w = [w]) /\
  (forall w c s,
      w <> [] -> Forall (fun d => isAlnum d = true) w -> isAlnum c = false ->
      camelWords (w ++ c :: s) = w :: camelWords s) /\
  (forall s, List.concat (camelWords s) = filter isAlnum s) /\
  (forall s, Forall (fun w => w <> [] /\ Forall (fun d => isAlnum d = true) w)
                    (camelWords s)) /\
  camelWords (lit "nguyen2023") = [lit "nguyen2023"] /\
  camelWords (lit "AWS") = [lit "AWS"] /\
  camelWords (lit "__andy  nguyen2023++AWS--")
    = [lit "andy"; lit "nguyen2023"; lit "AWS"].
Proof.
  split; [exact camelWords_runs|].
  split; [reflexivity|].
  split.
  { intros c s Hc. rewrite !camelWords_runs. now apply runs_sep. }
  split.
  { intros w Hne Hw. rewrite camelWords_runs. now apply runs_word. }
  split.
  { intros w c s Hne Hw Hc. rewrite !camelWords_runs.
    now apply runs_word_sep. }
  split.
  { intros s. rewrite camelWords_runs. apply runsFrom_concat. }
  split; [exact camelWords_wf|].
  repeat split; vm_compute; reflexivity.
Qed.

Lemma camelCase_tokenizer_runs_witness :
  camelWords (cu "+" :: lit "a1") = camelWords (lit "a1") /\
  camelWords (lit "a1") = [lit "a1"] /\
  camelWords (lit "a1" ++ cu "_" :: lit "B") = lit "a1" :: camelWords (lit "B").
Proof.
  destruct camelCase_tokenizer_runs as (_ & _ & H1 & H2 & H3 & _).
  split; [|split].
  - apply H1. reflexivity.
  - apply H2; [discriminate|repeat constructor].
  - apply H3; [discriminate|repeat constructor|reflexivity].
Defined.

(** C9. For every string dotCase and the delimiter-aware toKebabCase
    join the same lower-cased words, the one with [.] and the other with
    [-], and replacing every [.] in the result of dotCase by [-] gives
    the result of toKebabCase. *)
Theorem dotCase_toKebabCase_same_words (s : jsstring) :
  exists ws d k,
    Forall lowWord ws /\
    dotCase (VString s) = Return d /\ d = join [cu "."] ws /\
    toKebabCase (VString s) = Return k /\ k = join [cu "-"] ws /\
    dotsToHyphens d = k.
Proof.
  pose proof (lowered_words _ (delimitedWords_wf s)) as Hws.
  exists (map toLowerCase (delimitedWords s)).
  do 2 eexists.
  split; [exact Hws|].
  split; [reflexivity|]. split; [reflexivity|].
  split; [reflexivity|]. split; [reflexivity|].
  now apply dotsToHyphens_join.
Qed.

(** C10. On every string without an alphanumeric code unit, the empty
    string included, camelCase, dotCase and the delimiter-aware
    toKebabCase return the empty string and do not throw: the empty
    result is not special to absent input. *)
Theorem no_alphanumeric_gives_empty (s : jsstring) :
  Forall (fun d => isAlnum d = false) s ->
  camelCase (VString s) = Return [] /\
  dotCase (VString s) = Return [] /\
  toKebabCase (VString s) = Return [].
Proof.
  intros Hs.
  assert (Hruns : alnumRuns s = []).
  { unfold alnumRuns. now rewrite runsFrom_seps. }
  assert (Hw : delimitedWords s = []).
  { rewrite delimitedWords_no_upper; [exact Hruns|].
    eapply Forall_impl; [|exact Hs]. intros d. apply nonalnum_not_upper. }
  split; [|split].
  - rewrite camelCase_string, camelWords_runs, Hruns. reflexivity.
  - cbn [dotCase]. now rewrite Hw.
  - cbn [toKebabCase]. now rewrite Hw.
Qed.

Lemma no_alphanumeric_gives_empty_witness :
  (camelCase (VString (lit " +_. ")) = Return [] /\
   dotCase (VString (lit " +_. ")) = Return [] /\
   toKebabCase (VString (lit " +_. ")) = Return []) /\
  (camelCase (VString []) = Return [] /\
   dotCase (VString []) = Return [] /\
   toKebabCase (VString []) = Return []).
Proof.
  split.
  - apply (no_alphanumeric_gives_empty (lit " +_. ")). repeat constructor.
  - apply (no_alphanumeric_gives_empty []). constructor.
Defined.

(* ================================================================== *)
(** * Further properties of the four functions                         *)
(* ================================================================== *)

(** ** What the tokenizers keep *)

Lemma filter_insertWhere (here : jsstring -> bool) (s : jsstring) :
  filter isAlnum (insertWhere here s) = filter isAlnum s.
Proof.
  induction s as [|c s IH]; [reflexivity|].
  rewrite insertWhere_cons.
  change (c :: ?l) with ([c] ++ l).
  rewrite !filter_app, IH.
  now destruct (here (c :: s)).
Qed.

Lemma delimitedWords_concat (s : jsstring) :
  List.concat (delimitedWords s) = filter isAlnum s.
Proof.
  rewrite delimitedWords_runs. unfold alnumRuns.
  rewrite runsFrom_concat. simpl. now rewrite !filter_insertWhere.
Qed.

Lemma camelWords_concat (s : jsstring) :
  List.concat (camelWords s) = filter isAlnum s.
Proof. rewrite camelWords_runs. apply runsFrom_concat. Qed.

(** ** Case conversion *)

Lemma lowerUnit_idem c : lowerUnit (lowerUnit c) = lowerUnit c.
Proof. by_ranges. Qed.

Lemma lowerUnit_upperUnit c : lowerUnit (upperUnit c) = lowerUnit c.
Proof. by_ranges. Qed.

Lemma toLowerCase_app (a b : jsstring) :
  toLowerCase (a ++ b) = toLowerCase a ++ toLowerCase b.
Proof. apply map_app. Qed.

Lemma toLowerCase_idem (w : jsstring) :
  toLowerCase (toLowerCase w) = toLowerCase w.
Proof.
  unfold toLowerCase. rewrite map_map. apply map_ext. apply lowerUnit_idem.
Qed.

Lemma toLowerCase_toUpperCase (w : jsstring) :
  toLowerCase (toUpperCase w) = toLowerCase w.
Proof.
  unfold toLowerCase, toUpperCase. rewrite map_map. apply map_ext.
  apply lowerUnit_upperUnit.
Qed.

Lemma toLowerCase_concat (ws : list jsstring) :
  toLowerCase (List.concat ws) = List.concat (map toLowerCase ws).
Proof. unfold toLowerCase. apply concat_map. Qed.

(** The callback of [camelCase] changes the case of a word, nothing
    else. *)
Lemma toLowerCase_camelWord (w : jsstring) (i : nat) :
  toLowerCase (camelWord w i) = toLowerCase w.
Proof.
  unfold camelWord.
  destruct (strictEq w (toUpperCase w)), (Nat.eqb i 0);
    try apply toLowerCase_idem; try reflexivity.
  destruct w as [|c w]; [reflexivity|].
  cbn [charAt0 slice1]. rewrite toLowerCase_app, toLowerCase_toUpperCase.
  now rewrite toLowerCase_idem.
Qed.

Lemma toLowerCase_mapFrom (ws : list jsstring) :
  forall i, map toLowerCase (mapFrom camelWord i ws) = map toLowerCase ws.
Proof.
  induction ws as [|w ws IH]; intros i; [reflexivity|].
  simpl. now rewrite toLowerCase_camelWord, IH.
Qed.

Lemma filter_isAlnum_word (w : jsstring) :
  Forall (fun d => isAlnum d = true) w -> filter isAlnum w = w.
Proof.
  induction 1 as [|c w Hc _ IH]; [reflexivity|].
  simpl. now rewrite Hc, IH.
Qed.

(** The alphanumeric code units of a join are those of the words. *)
Lemma filter_join (c : N) (ws : list jsstring) :
  isAlnum c = false ->
  Forall (fun w => Forall (fun d => isAlnum d = true) w) ws ->
  filter isAlnum (join [c] ws) = List.concat ws.
Proof.
  intros Hc. induction 1 as [|w ws Hw Hws IH]; [reflexivity|].
  destruct ws as [|w' ws].
  - simpl. rewrite app_nil_r. now apply filter_isAlnum_word.
  - rewrite join_cons2, !filter_app, filter_isAlnum_word by assumption.
    simpl. rewrite Hc. simpl. f_equal. exact IH.
Qed.

Lemma lowWords_alnum (ws : list jsstring) :
  Forall lowWord ws ->
  Forall (fun w => Forall (fun d => isAlnum d = true) w) ws.
Proof.
  intros H. eapply Forall_impl; [|exact H].
  intros w [_ Hw]. eapply Forall_impl; [|exact Hw].
  intros d. apply lowdig_alnum.
Qed.

(** X1. The delimiter-aware word list is made of non-empty alphanumeric
    words which, put end to end, are exactly the alphanumeric code units
    of the input in their order: the two boundary steps cut words, and
    neither drop, add nor move a letter or digit. *)
Theorem delimitedWords_keep_alphanumerics (s : jsstring) :
  Forall (fun w => w <> [] /\ Forall (fun d => isAlnum d = true) w)
         (delimitedWords s) /\
  List.concat (delimitedWords s) = filter isAlnum s.
Proof. split; [apply delimitedWords_wf|apply delimitedWords_concat]. Qed.

(** X2. camelCase only removes separators and changes case: lower-casing
    its result gives the lower-cased alphanumeric code units of the
    input, so the result has as many code units as the input has letters
    and digits. *)
Theorem camelCase_changes_case_only (s : jsstring) :
  exists r,
    camelCase (VString s) = Return r /\
    toLowerCase r = toLowerCase (filter isAlnum s) /\
    List.length r = List.length (filter isAlnum s).
Proof.
  eexists. split; [apply camelCase_string|].
  assert (E : toLowerCase (List.concat (mapi camelWord (camelWords s)))
              = toLowerCase (filter isAlnum s)).
  { rewrite toLowerCase_concat. unfold mapi.
    now rewrite toLowerCase_mapFrom, <- toLowerCase_concat, camelWords_concat. }
  split; [exact E|].
  apply (f_equal (@List.length N)) in E.
  unfold toLowerCase in E. now rewrite !length_map in E.
Qed.

(** X3. dotCase and the delimiter-aware toKebabCase only lower-case the
    letters and put separators: the alphanumeric code units of the
    result are the lower-cased alphanumeric code units of the input. *)
Theorem dotCase_toKebabCase_keep_alphanumerics (s : jsstring) :
  (exists r, dotCase (VString s) = Return r /\
             filter isAlnum r = toLowerCase (filter isAlnum s)) /\
  (exists r, toKebabCase (VString s) = Return r /\
             filter isAlnum r = toLowerCase (filter isAlnum s)).
Proof.
  pose proof (lowWords_alnum _ (lowered_words _ (delimitedWords_wf s))) as Hws.
  split; eexists; (split; [reflexivity|]);
    rewrite filter_join by (assumption || reflexivity);
    now rewrite <- toLowerCase_concat, delimitedWords_concat.
Qed.

(** ** When the result is empty *)

Lemma filter_nil (f : N -> bool) (s : jsstring) :
  filter f s = [] <-> Forall (fun d => f d = false) s.
Proof.
  induction s as [|c s IH]; simpl; [split; constructor|].
  destruct (f c) eqn:Hc.
  - split; [discriminate|]. intros H. inversion H; congruence.
  - rewrite IH. split; [now constructor|]. intros H. now inversion H.
Qed.

Lemma words_nil (ws : list jsstring) :
  Forall (fun w => w <> [] /\ Forall (fun d => isAlnum d = true) w) ws ->
  List.concat ws = [] -> ws = [].
Proof.
  intros H E. destruct H as [|w ws [Hne _] _]; [reflexivity|].
  simpl in E. apply app_eq_nil in E. tauto.
Qed.

Lemma join_nil_inv (c : N) (ws : list jsstring) :
  Forall (fun w => w <> []) ws -> join [c] ws = [] -> ws = [].
Proof.
  intros H E. destruct H as [|w ws Hne H]; [reflexivity|].
  destruct ws as [|w' ws].
  - simpl in E. congruence.
  - rewrite join_cons2 in E. apply app_eq_nil in E. tauto.
Qed.

Lemma delimitedWords_nil (s : jsstring) :
  delimitedWords s = [] <-> Forall (fun d => isAlnum d = false) s.
Proof.
  rewrite <- filter_nil, <- delimitedWords_concat. split.
  - now intros ->.
  - apply words_nil, delimitedWords_wf.
Qed.

Lemma lowered_join_nil (c : N) (s : jsstring) :
  join [c] (map toLowerCase (delimitedWords s)) = [] <->
  Forall (fun d => isAlnum d = false) s.
Proof.
  rewrite <- delimitedWords_nil. split.
  - intros E. apply join_nil_inv in E.
    + now apply map_eq_nil in E.
    + eapply Forall_impl; [|exact (lowered_words _ (delimitedWords_wf s))].
      now intros w [Hne _].
  - now intros ->.
Qed.

Lemma camelWords_mapped_lower (ws : list jsstring) :
  toLowerCase (List.concat (mapi camelWord ws)) = toLowerCase (List.concat ws).
Proof.
  unfold mapi. now rewrite !toLowerCase_concat, toLowerCase_mapFrom.
Qed.

Lemma camelWords_mapped_length (ws : list jsstring) :
  List.length (List.concat (mapi camelWord ws)) = List.length (List.concat ws).
Proof.
  pose proof (f_equal (@List.length N) (camelWords_mapped_lower ws)) as E.
  unfold toLowerCase in E. now rewrite !length_map in E.
Qed.

(** X4. On a string each of camelCase, dotCase and the delimiter-aware
    toKebabCase returns the empty string exactly when the string holds
    no letter and no digit. *)
Theorem empty_result_iff_no_alphanumeric (s : jsstring) :
  (camelCase (VString s) = Return [] <->
   Forall (fun d => isAlnum d = false) s) /\
  (dotCase (VString s) = Return [] <->
   Forall (fun d => isAlnum d = false) s) /\
  (toKebabCase (VString s) = Return [] <->
   Forall (fun d => isAlnum d = false) s).
Proof.
  split; [|split].
  - rewrite camelCase_string, <- filter_nil, <- camelWords_concat. split.
    + intros [= E]. apply List.length_zero_iff_nil.
      rewrite <- (camelWords_mapped_length (camelWords s)), E. reflexivity.
    + intros E. apply words_nil in E; [|apply camelWords_wf].
      now rewrite E.
  - rewrite <- (lowered_join_nil (cu ".") s). cbv [dotCase].
    split; congruence.
  - rewrite <- (lowered_join_nil (cu "-") s). cbv [toKebabCase].
    split; congruence.
Qed.

(** ** camelCase on its own result *)

Lemma lowerUnit_alnum c : isAlnum c = true -> isAlnum (lowerUnit c) = true.
Proof. by_ranges. Qed.

Lemma upperUnit_alnum c : isAlnum c = true -> isAlnum (upperUnit c) = true.
Proof. by_ranges. Qed.

Lemma toLowerCase_alnum (w : jsstring) :
  Forall (fun d => isAlnum d = true) w ->
  Forall (fun d => isAlnum d = true) (toLowerCase w).
Proof.
  intros H. apply Forall_map. eapply Forall_impl; [|exact H].
  intros d. apply lowerUnit_alnum.
Qed.

Lemma camelWord_zero (w : jsstring) : camelWord w 0 = toLowerCase w.
Proof. unfold camelWord. now destruct (strictEq w (toUpperCase w)). Qed.

Lemma camelWord_alnum (w : jsstring) (i : nat) :
  Forall (fun d => isAlnum d = true) w ->
  Forall (fun d => isAlnum d = true) (camelWord w i).
Proof.
  intros Hw. unfold camelWord.
  destruct (strictEq w (toUpperCase w)), (Nat.eqb i 0);
    try (now apply toLowerCase_alnum); try assumption.
  destruct Hw as [|c w Hc Hw]; [constructor|].
  cbn [charAt0 slice1]. apply Forall_app. split.
  - constructor; [now apply upperUnit_alnum|constructor].
  - now apply toLowerCase_alnum.
Qed.

Lemma mapFrom_alnum (ws : list jsstring) :
  Forall (fun w => w <> [] /\ Forall (fun d => isAlnum d = true) w) ws ->
  forall i, Forall (fun d => isAlnum d = true)
                   (List.concat (mapFrom camelWord i ws)).
Proof.
  induction 1 as [|w ws [_ Hw] _ IH]; intros i; [constructor|].
  simpl. apply Forall_app. split; [now apply camelWord_alnum|apply IH].
Qed.




(** X6. The result of camelCase holds letters and digits only and never
    starts with an upper-case letter. *)
Theorem camelCase_result_shape (s : jsstring) :
  exists r,
    camelCase (VString s) = Return r /\
    Forall (fun d => isAlnum d = true) r /\
    match r with
    | [] => True
    | c :: _ => isLowDig c = true
    end.
Proof.
  eexists. split; [apply camelCase_string|].
  split; [apply mapFrom_alnum, camelWords_wf|].
  pose proof (camelWords_wf s) as H. unfold mapi.
  destruct H as [|w ws [Hne Hw] _]; [exact I|].
  simpl. rewrite camelWord_zero.
  destruct Hw as [|c w Hc _]; [congruence|].
  simpl. now apply lowerUnit_lowdig.
Qed.

(** ** Separators do not matter *)

Lemma nonalnum_not_lowdig c : isAlnum c = false -> isLowDig c = false.
Proof. by_ranges. Qed.

Lemma insertWhere_lowerUpper_split (X : jsstring) (c : N) (Y : jsstring) :
  isAlnum c = false ->
  insertWhere lowerUpperBoundary (X ++ c :: Y) =
  insertWhere lowerUpperBoundary X ++ c :: insertWhere lowerUpperBoundary Y.
Proof.
  intros Hc. induction X as [|a X IH].
  - cbn [app]. rewrite insertWhere_cons.
    replace (lowerUpperBoundary (c :: Y)) with false; [reflexivity|].
    destruct Y; [reflexivity|]. cbn [lowerUpperBoundary].
    now rewrite (nonalnum_not_lowdig c Hc).
  - rewrite <- app_comm_cons, !insertWhere_cons, IH.
    replace (lowerUpperBoundary (a :: X ++ c :: Y))
      with (lowerUpperBoundary (a :: X));
      [now rewrite <- app_comm_cons, <- app_assoc|].
    destruct X as [|b X]; [|reflexivity].
    cbn [app lowerUpperBoundary].
    now rewrite (nonalnum_not_upper c Hc), andb_false_r.
Qed.

Lemma insertWhere_acronym_split (X : jsstring) (c : N) (Y : jsstring) :
  isAlnum c = false ->
  insertWhere acronymBoundary (X ++ c :: Y) =
  insertWhere acronymBoundary X ++ c :: insertWhere acronymBoundary Y.
Proof.
  intros Hc. induction X as [|a X IH].
  - cbn [app]. rewrite insertWhere_cons.
    now rewrite acronymBoundary_not_upper by now apply nonalnum_not_upper.
  - rewrite <- app_comm_cons, !insertWhere_cons, IH.
    replace (acronymBoundary (a :: X ++ c :: Y))
      with (acronymBoundary (a :: X));
      [now rewrite <- app_comm_cons, <- app_assoc|].
    destruct X as [|b [|d X]]; [| |reflexivity]; cbn [app].
    + now rewrite acronymBoundary_upper_low by now apply nonalnum_not_upper.
    + cbn [acronymBoundary].
      now rewrite (nonalnum_not_lowdig c Hc), andb_false_r.
Qed.

Lemma runsFrom_split (A : jsstring) (c : N) (B : jsstring) :
  isAlnum c = false ->
  forall cur,
    runsFrom isAlnum cur (A ++ c :: B) =
    runsFrom isAlnum cur A ++ runsFrom isAlnum [] B.
Proof.
  intros Hc. induction A as [|a A IH]; intros cur.
  - simpl. now rewrite Hc.
  - simpl. destruct (isAlnum a); rewrite IH; [reflexivity|].
    now rewrite app_assoc.
Qed.

Lemma delimitedWords_split (X : jsstring) (c : N) (Y : jsstring) :
  isAlnum c = false ->
  delimitedWords (X ++ c :: Y) = delimitedWords X ++ delimitedWords Y.
Proof.
  intros Hc. rewrite !delimitedWords_runs.
  rewrite insertWhere_lowerUpper_split, insertWhere_acronym_split
    by assumption.
  now apply runsFrom_split.
Qed.

Lemma first_separator (s : jsstring) :
  Forall (fun d => isAlnum d = true) s \/
  exists X c Y,
    s = X ++ c :: Y /\ Forall (fun d => isAlnum d = true) X /\
    isAlnum c = false.
Proof.
  induction s as [|a s IH]; [left; constructor|].
  destruct (isAlnum a) eqn:Ha.
  - destruct IH as [H|(X & c & Y & -> & HX & Hc)].
    + left. now constructor.
    + right. exists (a :: X), c, Y. repeat split; [now constructor|exact Hc].
  - right. exists [], a, s. repeat split; [constructor|exact Ha].
Qed.

Lemma delimitedWords_of_runs (s : jsstring) :
  delimitedWords s = flat_map delimitedWords (alnumRuns s).
Proof.
  induction s as [s IH] using length_ind.
  assert (Hword : forall X, Forall (fun d => isAlnum d = true) X ->
            delimitedWords X = flat_map delimitedWords (alnumRuns X)).
  { intros [|a X] HX; [reflexivity|].
    unfold alnumRuns. rewrite runs_word by (assumption || discriminate).
    simpl. now rewrite app_nil_r. }
  destruct (first_separator s) as [H|(X & c & Y & -> & HX & Hc)].
  - now apply Hword.
  - rewrite delimitedWords_split by assumption.
    unfold alnumRuns. rewrite runsFrom_split by assumption.
    rewrite flat_map_app. f_equal.
    + now apply Hword.
    + apply IH. rewrite length_app. simpl. lia.
Qed.

(** X7. The delimiter-aware tokenizer never joins across a separator:
    its word list is the word list of camelCase's tokenizer with each
    word cut further by the two boundary steps on that word alone. *)
Theorem delimitedWords_refine_camelWords (s : jsstring) :
  delimitedWords s = flat_map delimitedWords (camelWords s).
Proof. rewrite camelWords_runs. apply delimitedWords_of_runs. Qed.

(** X8. Only the words count, not the separators: two strings with the
    same maximal alphanumeric runs get the same result from camelCase,
    from dotCase and from the delimiter-aware toKebabCase, whatever code
    units separate the runs and however many. *)
Theorem results_depend_on_runs_only (s t : jsstring) :
  alnumRuns s = alnumRuns t ->
  camelCase (VString s) = camelCase (VString t) /\
  dotCase (VString s) = dotCase (VString t) /\
  toKebabCase (VString s) = toKebabCase (VString t).
Proof.
  intros E.
  assert (Ed : delimitedWords s = delimitedWords t).
  { now rewrite (delimitedWords_of_runs s), (delimitedWords_of_runs t), E. }
  split; [|split].
  - now rewrite !camelCase_string, !camelWords_runs, E.
  - cbv [dotCase]. now rewrite Ed.
  - cbv [toKebabCase]. now rewrite Ed.
Qed.

Lemma results_depend_on_runs_only_witness :
  camelCase (VString (lit "andy_nguyenAWS"))
    = camelCase (VString (lit "  andy +. nguyenAWS--")) /\
  dotCase (VString (lit "andy_nguyenAWS"))
    = dotCase (VString (lit "  andy +. nguyenAWS--")) /\
  toKebabCase (VString (lit "andy_nguyenAWS"))
    = toKebabCase (VString (lit "  andy +. nguyenAWS--")).
Proof.
  apply (results_depend_on_runs_only
           (lit "andy_nguyenAWS") (lit "  andy +. nguyenAWS--")).
  vm_compute. reflexivity.
Defined.

(** X9. dotCase and the delimiter-aware toKebabCase convert each other's
    results: toKebabCase of the dotCase of a string is its toKebabCase,
    dotCase of its toKebabCase is its dotCase, and camelCase gives the
    same on both. *)
Theorem dotCase_toKebabCase_convert (s : jsstring) :
  exists d k,
    dotCase (VString s) = Return d /\
    toKebabCase (VString s) = Return k /\
    toKebabCase (VString d) = Return k /\
    dotCase (VString k) = Return d /\
    camelCase (VString d) = camelCase (VString k).
Proof.
  pose proof (lowered_words _ (delimitedWords_wf s)) as Hws.
  do 2 eexists.
  split; [reflexivity|]. split; [reflexivity|].
  split; [|split].
  - cbv [toKebabCase].
    rewrite delimitedWords_join by (assumption || reflexivity).
    now rewrite lowWords_fixed.
  - cbv [dotCase].
    rewrite delimitedWords_join by (assumption || reflexivity).
    now rewrite lowWords_fixed.
  - rewrite !camelCase_string, !camelWords_runs.
    now rewrite !runs_join by (assumption || reflexivity).
Qed.

(** ** The shape of a joined result *)

Lemma join_cons_head (sep : jsstring) (d : N) (w : jsstring)
    (ws : list jsstring) :
  join sep ((d :: w) :: ws) = d :: join sep (w :: ws).
Proof. now destruct ws. Qed.

Section JoinShape.

Variable c : N.
Hypothesis c_not_lowdig : isLowDig c = false.

Lemma lowWord_no_sep (w a b : jsstring) : lowWord w -> w <> a ++ c :: b.
Proof.
  intros [_ Hw] ->. apply Forall_app in Hw. destruct Hw as [_ Hw].
  inversion Hw; congruence.
Qed.

Lemma join_lowWords_shape (ws : list jsstring) :
  Forall lowWord ws ->
  Forall (fun d => isLowDig d = true \/ d = c) (join [c] ws) /\
  (forall t, join [c] ws <> c :: t) /\
  (forall t, join [c] ws <> t ++ [c]) /\
  (forall a b, join [c] ws <> a ++ c :: c :: b).
Proof.
  induction 1 as [|w ws Hw Hws IH].
  - repeat split; try constructor; intros; simpl.
    + discriminate.
    + now destruct t.
    + now destruct a.
  - assert (Halpha : Forall (fun d => isLowDig d = true \/ d = c) w).
    { destruct Hw as [_ Hw]. eapply Forall_impl; [|exact Hw]. now left. }
    assert (Hhead : forall X t, w ++ X <> c :: t).
    { intros X t E. destruct Hw as [Hne Hw].
      destruct w as [|d w]; [congruence|].
      injection E as -> _. inversion Hw; congruence. }
    destruct ws as [|w' ws].
    + simpl. repeat split; [exact Halpha| | |].
      * intros t E. apply (Hhead [] t). now rewrite app_nil_r.
      * intros t. apply (lowWord_no_sep w t [] Hw).
      * intros a b. apply (lowWord_no_sep w a (c :: b) Hw).
    + destruct IH as (IHa & IHh & IHl & IHd).
      rewrite join_cons2. repeat split.
      * apply Forall_app. split; [exact Halpha|].
        apply Forall_app. split; [|exact IHa].
        constructor; [now right|constructor].
      * intros t. apply Hhead.
      * intros t E.
        assert (Hne : join [c] (w' :: ws) <> []).
        { inversion Hws as [|? ? [Hne' _] _]; subst.
          destruct w' as [|d w']; [congruence|].
          now rewrite join_cons_head. }
        destruct (exists_last Hne) as (J0 & z & EJ).
        rewrite EJ in E. cbn [app] in E.
        rewrite app_comm_cons, app_assoc in E.
        apply app_inj_tail in E. destruct E as [_ ->].
        now apply (IHl J0).
      * intros a b E. cbn [app] in E.
        apply app_eq_app in E.
        destruct E as [l [[Ew El]|[Ea El]]].
        -- destruct l as [|x l]; cbn [app] in El.
           ++ injection El as El. now apply (IHh b).
           ++ injection El as <- _. now apply (lowWord_no_sep w a l Hw).
        -- destruct l as [|x l]; cbn [app] in El.
           ++ injection El as El. now apply (IHh b).
           ++ injection El as <- El. now apply (IHd l b).
Qed.

End JoinShape.

(** X10. The results of dotCase and of the delimiter-aware toKebabCase
    are well formed: they hold lower-case letters, digits and the
    separator only, never start or end with the separator, and never
    hold two separators in a row. *)
Theorem dotCase_toKebabCase_result_shape (s : jsstring) :
  (exists r,
      dotCase (VString s) = Return r /\
      Forall (fun d => isLowDig d = true \/ d = cu ".") r /\
      (forall t, r <> cu "." :: t) /\
      (forall t, r <> t ++ [cu "."]) /\
      (forall a b, r <> a ++ cu "." :: cu "." :: b)) /\
  (exists r,
      toKebabCase (VString s) = Return r /\
      Forall (fun d => isLowDig d = true \/ d = cu "-") r /\
      (forall t, r <> cu "-" :: t) /\
      (forall t, r <> t ++ [cu "-"]) /\
      (forall a b, r <> a ++ cu "-" :: cu "-" :: b)).
Proof.
  pose proof (lowered_words _ (delimitedWords_wf s)) as Hws.
  split; eexists; (split; [reflexivity|]);
    now apply join_lowWords_shape.
Qed.

(* ================================================================== *)
(** * chain_prompt.js: what the simplified toKebabCase computes        *)
(* ================================================================== *)

Lemma class_nonAlnumI c :
  noneOfI [Range "a" "z"; Range "0" "9"] c = negb (isAlnum c).
Proof.
  unfold noneOfI, oneOfI, oneOf. simpl. by_ranges.
Qed.

Lemma class_space c : oneOf [Space] c = isWhiteSpace c.
Proof. unfold oneOf. simpl. apply orb_false_r. Qed.

(** ** [[p]+] takes the whole run *)

Lemma repeats_longest (p : N -> bool) (s : jsstring) :
  forall c, p c = true ->
    exists m r,
      hd_error (repeats p (c :: s)) = Some (c :: m, r) /\
      s = m ++ r /\ Forall (fun d => p d = true) m /\
      match r with [] => True | d :: _ => p d = false end.
Proof.
  induction s as [|d s IH]; intros c Hc.
  - exists [], []. simpl. rewrite Hc. simpl. repeat split. constructor.
  - destruct (p d) eqn:Hd.
    + destruct (IH d Hd) as (m & r & E & -> & Hm & Hr).
      exists (d :: m), r. repeat split; [|now constructor|exact Hr].
      change (repeats p (c :: d :: m ++ r))
        with (if p c
              then map (fun mr => (c :: fst mr, snd mr))
                       (repeats p (d :: m ++ r)) ++ [([c], d :: m ++ r)]
              else []).
      rewrite Hc.
      destruct (repeats p (d :: m ++ r)) as [|x l]; [discriminate E|].
      simpl in E. injection E as ->. reflexivity.
    + exists [], (d :: s). simpl. rewrite Hc, Hd. simpl.
      repeat split. constructor.
Qed.

Lemma exec_plus_longest (p : N -> bool) (c : N) (s : jsstring) :
  p c = true ->
  exists m r,
    exec (ClassPlus p) (c :: s) = Some (mkSuccess [] (c :: m) r) /\
    s = m ++ r /\ Forall (fun d => p d = true) m /\
    match r with [] => True | d :: _ => p d = false end.
Proof.
  intros Hc. destruct (repeats_longest p s c Hc) as (m & r & E & H).
  exists m, r. split; [|exact H].
  unfold exec. cbn [matches].
  destruct (repeats p (c :: s)) as [|x l]; [discriminate E|].
  simpl in E. injection E as ->. reflexivity.
Qed.

Section ReplaceRuns.

Variables (p : N -> bool) (x : jsstring).

(** Outside the class nothing is replaced. *)
Lemma replace_runs_word (w s : jsstring) :
  Forall (fun d => p d = false) w ->
  replace (ClassPlus p) (fun _ => x) (w ++ s) =
  w ++ replace (ClassPlus p) (fun _ => x) s.
Proof.
  induction 1 as [|d w Hd _ IH]; [reflexivity|].
  rewrite <- app_comm_cons, replace_step, exec_plus_none by assumption.
  now rewrite IH.
Qed.

(** A run of the class is replaced as a whole. *)
Lemma replace_runs_sep (c : N) (s : jsstring) :
  p c = true ->
  exists m r,
    s = m ++ r /\ Forall (fun d => p d = true) m /\
    match r with [] => True | d :: _ => p d = false end /\
    replace (ClassPlus p) (fun _ => x) (c :: s) =
    x ++ replace (ClassPlus p) (fun _ => x) r.
Proof.
  intros Hc. destruct (exec_plus_longest p c s Hc) as (m & r & E & Hs & Hm & Hr).
  exists m, r. repeat split; try assumption.
  now rewrite replace_step, E.
Qed.

(** Between words that hold no code unit of the class, a single code
    unit of the class is replaced by the template. *)
Lemma replace_runs_join (c : N) (ws : list jsstring) :
  p c = true ->
  Forall (fun w => w <> [] /\ Forall (fun d => p d = false) w) ws ->
  replace (ClassPlus p) (fun _ => x) (join [c] ws) = join x ws.
Proof.
  intros Hc. induction 1 as [|w ws [Hne Hw] Hws IH]; [reflexivity|].
  destruct ws as [|w' ws].
  - simpl. rewrite <- (app_nil_r w) at 1.
    rewrite replace_runs_word by assumption. apply app_nil_r.
  - rewrite !join_cons2, replace_runs_word by assumption. f_equal.
    cbn [app].
    destruct (replace_runs_sep c (join [c] (w' :: ws)) Hc)
      as (m & r & Hs & Hm & Hr & Hrep).
    etransitivity; [exact Hrep|]. f_equal.
    inversion Hws as [|? ? [Hne' Hw'] _]; subst.
    destruct w' as [|d w']; [congruence|].
    inversion Hw' as [|? ? Hd _]; subst.
    rewrite join_cons_head in Hs.
    destruct m as [|e m]; cbn [app] in Hs.
    + subst r. etransitivity; [|exact IH].
      f_equal. symmetry. apply join_cons_head.
    + injection Hs as <- _. inversion Hm; congruence.
Qed.

End ReplaceRuns.

(** ** Runs of separators become one space *)

Lemma runsFrom_skip_seps (m s : jsstring) :
  Forall (fun d => isAlnum d = false) m ->
  runsFrom isAlnum [] (m ++ s) = runsFrom isAlnum [] s.
Proof.
  induction 1 as [|d m Hd _ IH]; [reflexivity|].
  rewrite <- app_comm_cons, runs_sep by assumption. exact IH.
Qed.

Lemma runsFrom_app_seps (r : jsstring) :
  Forall (fun d => isAlnum d = false) r ->
  forall u cur, runsFrom isAlnum cur (u ++ r) = runsFrom isAlnum cur u.
Proof.
  intros Hr. induction u as [|c u IH]; intros cur.
  - simpl. now apply runsFrom_seps.
  - simpl. destruct (isAlnum c); now rewrite IH.
Qed.

Section CollapseRuns.

Variables (p : N -> bool) (sp : N).
Hypothesis p_nonAlnum : forall c, p c = negb (isAlnum c).

Lemma collapse_runs (t : jsstring) :
  exists r,
    Forall (fun d => d = sp) r /\
    replace (ClassPlus p) (fun _ => [sp]) t =
    match t with
    | [] => []
    | c :: _ => if isAlnum c then [] else [sp]
    end ++ join [sp] (alnumRuns t) ++ r.
Proof.
  induction t as [t IH] using length_ind.
  destruct t as [|c t]; [exists []; split; [constructor|reflexivity]|].
  destruct (isAlnum c) eqn:Hc.
  - (* the input starts with a word *)
    destruct (first_separator (c :: t)) as [Hw|(X & c' & Y & E & HX & Hc')].
    + exists []. split; [constructor|].
      assert (Hp : Forall (fun d => p d = false) (c :: t)).
      { eapply Forall_impl; [|exact Hw].
        intros d Hd. cbv beta in Hd. now rewrite p_nonAlnum, Hd. }
      rewrite <- (app_nil_r (c :: t)) at 1.
      rewrite replace_runs_word by assumption.
      unfold alnumRuns. rewrite runs_word by (assumption || discriminate).
      reflexivity.
    + assert (HXne : X <> []).
      { intros ->. cbn [app] in E. injection E as -> _. congruence. }
      assert (Hp : Forall (fun d => p d = false) X).
      { eapply Forall_impl; [|exact HX].
        intros d Hd. cbv beta in Hd. now rewrite p_nonAlnum, Hd. }
      rewrite E, replace_runs_word by assumption.
      destruct (IH (c' :: Y)) as (r & Hr & ->).
      { rewrite E, length_app. destruct X; [congruence|simpl; lia]. }
      rewrite Hc'. unfold alnumRuns.
      rewrite runs_word_sep, runs_sep by assumption.
      destruct (runsFrom isAlnum [] Y) as [|w ws] eqn:ER.
      * exists (sp :: r). split; [now constructor|].
        reflexivity.
      * exists r. split; [exact Hr|].
        rewrite join_cons2, <- !app_assoc. reflexivity.
  - (* the input starts with a separator *)
    assert (Hpc : p c = true) by now rewrite p_nonAlnum, Hc.
    destruct (replace_runs_sep p [sp] c t Hpc) as (m & r0 & -> & Hm & Hr0 & ->).
    destruct (IH r0) as (r & Hr & ->).
    { simpl. rewrite length_app. lia. }
    exists r. split; [exact Hr|].
    assert (Hm' : Forall (fun d => isAlnum d = false) (c :: m)).
    { constructor; [exact Hc|]. eapply Forall_impl; [|exact Hm].
      intros d Hd. cbv beta in Hd. rewrite p_nonAlnum in Hd.
      now destruct (isAlnum d). }
    unfold alnumRuns.
    change (c :: m ++ r0) with ((c :: m) ++ r0).
    rewrite runsFrom_skip_seps by assumption.
    destruct r0 as [|d r0]; [reflexivity|].
    rewrite p_nonAlnum in Hr0. destruct (isAlnum d); [reflexivity|discriminate].
Qed.

End CollapseRuns.

(** ** trim *)

Lemma trimStart_spaces (l z : jsstring) :
  Forall (fun d => isWhiteSpace d = true) l ->
  trimStart (l ++ z) = trimStart z.
Proof.
  induction 1 as [|d l Hd _ IH]; [reflexivity|]. simpl. now rewrite Hd.
Qed.

Lemma trimStart_fixed (d : N) (z : jsstring) :
  isWhiteSpace d = false -> trimStart (d :: z) = d :: z.
Proof. simpl. now intros ->. Qed.

Lemma trimStart_decomp (s : jsstring) :
  exists l, s = l ++ trimStart s /\ Forall (fun d => isWhiteSpace d = true) l.
Proof.
  induction s as [|c s (l & E & Hl)]; [exists []; split; [reflexivity|constructor]|].
  simpl. destruct (isWhiteSpace c) eqn:Hc.
  - exists (c :: l). split; [simpl; now f_equal|now constructor].
  - exists []. split; [reflexivity|constructor].
Qed.

Lemma trimEnd_decomp (s : jsstring) :
  exists r, s = trimEnd s ++ r /\ Forall (fun d => isWhiteSpace d = true) r.
Proof.
  unfold trimEnd. destruct (trimStart_decomp (rev s)) as (l & E & Hl).
  exists (rev l). split; [|now apply Forall_rev].
  rewrite <- rev_app_distr, <- E. symmetry. apply rev_involutive.
Qed.

(** Around a text that neither starts nor ends with white space, [trim]
    removes the white space and nothing else. *)
Lemma trim_padded (l z r : jsstring) :
  Forall (fun d => isWhiteSpace d = true) l ->
  Forall (fun d => isWhiteSpace d = true) r ->
  z = [] \/
  ((exists d z', z = d :: z' /\ isWhiteSpace d = false) /\
   (exists z' e, z = z' ++ [e] /\ isWhiteSpace e = false)) ->
  trim (l ++ z ++ r) = z.
Proof.
  intros Hl Hr Hz. unfold trim, trimEnd.
  rewrite trimStart_spaces by assumption.
  destruct Hz as [->|[(d & z' & -> & Hd) (z'' & e & E & He)]].
  - cbn [app]. rewrite <- (app_nil_r r), trimStart_spaces by assumption.
    reflexivity.
  - rewrite <- app_comm_cons, trimStart_fixed by assumption.
    rewrite app_comm_cons, E, rev_app_distr.
    rewrite trimStart_spaces by now apply Forall_rev.
    rewrite rev_app_distr. cbn [rev app].
    rewrite trimStart_fixed by assumption.
    cbn [rev]. now rewrite rev_involutive.
Qed.

Lemma join_words_ends (c : N) (ws : list jsstring) :
  Forall (fun w => w <> [] /\ Forall (fun d => isAlnum d = true) w) ws ->
  ws <> [] ->
  (exists d z', join [c] ws = d :: z' /\ isAlnum d = true) /\
  (exists z' e, join [c] ws = z' ++ [e] /\ isAlnum e = true).
Proof.
  intros H Hne. split.
  - destruct ws as [|w ws]; [congruence|].
    inversion H as [|? ? [Hw Ha] _]; subst.
    destruct w as [|d w]; [congruence|].
    exists d, (join [c] (w :: ws)). split; [apply join_cons_head|].
    now inversion Ha.
  - revert Hne. induction H as [|w ws [Hw Ha] Hws IH]; intros Hne;
      [now elim Hne|].
    destruct ws as [|w' ws].
    + destruct (exists_last Hw) as (z' & e & ->).
      exists z', e. split; [reflexivity|].
      apply Forall_app in Ha. destruct Ha as [_ Ha]. now inversion Ha.
    + destruct IH as (z' & e & E & He); [discriminate|].
      exists (w ++ [c] ++ z'), e. split; [|exact He].
      rewrite join_cons2. etransitivity; [|apply app_assoc].
      f_equal. etransitivity; [|apply app_assoc]. f_equal. exact E.
Qed.

Lemma whitespace_of_nonalnum_word (ws : list jsstring) :
  Forall (fun w => w <> [] /\ Forall (fun d => isAlnum d = true) w) ws ->
  Forall (fun w => w <> [] /\ Forall (fun d => isWhiteSpace d = false) w) ws.
Proof.
  intros H. eapply Forall_impl; [|exact H].
  intros w [Hne Hw]. split; [exact Hne|].
  eapply Forall_impl; [|exact Hw].
  intros d Hd. cbv beta in Hd.
  destruct (isWhiteSpace d) eqn:E; [|reflexivity].
  apply whitespace_not_alnum in E. congruence.
Qed.

Lemma alnum_not_whitespace d : isAlnum d = true -> isWhiteSpace d = false.
Proof.
  intros Hd. destruct (isWhiteSpace d) eqn:E; [|reflexivity].
  apply whitespace_not_alnum in E. congruence.
Qed.

(** ** The runs of a trimmed, lower-cased string *)

Lemma lowerUnit_isAlnum c : isAlnum (lowerUnit c) = isAlnum c.
Proof. by_ranges. Qed.

Lemma flush_map (f : N -> N) (cur : jsstring) :
  flush (map f cur) = map (map f) (flush cur).
Proof.
  destruct cur as [|c cur]; [reflexivity|].
  simpl. now rewrite map_app, map_rev.
Qed.

Lemma runsFrom_toLowerCase (u : jsstring) :
  forall cur,
    runsFrom isAlnum (toLowerCase cur) (toLowerCase u) =
    map toLowerCase (runsFrom isAlnum cur u).
Proof.
  induction u as [|c u IH]; intros cur.
  - apply flush_map.
  - cbn [toLowerCase map runsFrom]. rewrite lowerUnit_isAlnum.
    destruct (isAlnum c).
    + apply (IH (c :: cur)).
    + rewrite map_app. f_equal; [apply flush_map|apply (IH [])].
Qed.

Lemma alnumRuns_trim (s : jsstring) : alnumRuns (trim s) = alnumRuns s.
Proof.
  unfold trim, alnumRuns.
  destruct (trimStart_decomp s) as (l & El & Hl).
  destruct (trimEnd_decomp (trimStart s)) as (r & Er & Hr).
  rewrite El at 2. rewrite Er at 2.
  rewrite runsFrom_skip_seps, runsFrom_app_seps; [reflexivity| |].
  - eapply Forall_impl; [|exact Hr]. intros d. apply whitespace_not_alnum.
  - eapply Forall_impl; [|exact Hl]. intros d. apply whitespace_not_alnum.
Qed.

(** What the chain of [chain_prompt.js] computes on a string. *)
Lemma simplified_toKebabCase_string (s : jsstring) :
  ChainPrompt.toKebabCase (VString s) =
  Return (join [cu "-"] (map toLowerCase (alnumRuns s))).
Proof.
  cbv [ChainPrompt.toKebabCase]. f_equal.
  destruct (collapse_runs
              (noneOfI [Range "a" "z"; Range "0" "9"]) (cu " ")
              class_nonAlnumI (toLowerCase (trim s)))
    as (r & Hr & E).
  unfold ChainPrompt.reNonAlnumI. rewrite E. clear E.
  assert (Eruns : alnumRuns (toLowerCase (trim s))
                  = map toLowerCase (alnumRuns s)).
  { etransitivity; [exact (runsFrom_toLowerCase (trim s) [])|].
    f_equal. apply alnumRuns_trim. }
  rewrite Eruns.
  assert (Hws : Forall (fun w => w <> [] /\ Forall (fun d => isAlnum d = true) w)
                  (map toLowerCase (alnumRuns s))).
  { pose proof (lowered_words _ (runsFrom_wf isAlnum s [] (Forall_nil _))) as H.
    eapply Forall_impl; [|exact H]. intros w [Hne Hw]. split; [exact Hne|].
    eapply Forall_impl; [|exact Hw]. intros d. apply lowdig_alnum. }
  rewrite trim_padded.
  - apply replace_runs_join; [reflexivity|].
    eapply Forall_impl; [|exact (whitespace_of_nonalnum_word _ Hws)].
    intros w [Hne Hw]. split; [exact Hne|].
    eapply Forall_impl; [|exact Hw].
    intros d Hd. now rewrite class_space.
  - destruct (toLowerCase (trim s)) as [|c t]; [constructor|].
    destruct (isAlnum c); repeat constructor.
  - eapply Forall_impl; [|exact Hr]. now intros d ->.
  - destruct (map toLowerCase (alnumRuns s)) as [|w ws] eqn:Ew; [now left|].
    right. rewrite <- Ew in *.
    destruct (join_words_ends (cu " ") _ Hws) as [(d & z' & E1 & Hd) (z'' & e & E2 & He)].
    { rewrite Ew. discriminate. }
    split.
    + exists d, z'. split; [exact E1|now apply alnum_not_whitespace].
    + exists z'', e. split; [exact E2|now apply alnum_not_whitespace].
Qed.

Lemma lowerUnit_not_upper c : isUpper (lowerUnit c) = false.
Proof. by_ranges. Qed.

Lemma toLowerCase_no_upper (s : jsstring) :
  Forall (fun d => isUpper d = false) (toLowerCase s).
Proof.
  apply Forall_map. apply Forall_forall. intros d _.
  apply lowerUnit_not_upper.
Qed.

Lemma alnumRuns_toLowerCase (s : jsstring) :
  alnumRuns (toLowerCase s) = map toLowerCase (alnumRuns s).
Proof. exact (runsFrom_toLowerCase s []). Qed.

Lemma alnumRuns_lowWords (s : jsstring) :
  Forall lowWord (map toLowerCase (alnumRuns s)).
Proof. apply lowered_words. apply runsFrom_wf. constructor. Qed.

Lemma lowdig_ascii d : isLowDig d = true -> (d < 128)%N.
Proof. by_ranges. Qed.

Lemma join_lowWords_ascii (c : N) (ws : list jsstring) :
  (c < 128)%N -> isLowDig c = false -> Forall lowWord ws ->
  Forall (fun d => (d < 128)%N) (join [c] ws).
Proof.
  intros Hc Hl Hws.
  destruct (join_lowWords_shape c Hl ws Hws) as [H _].
  eapply Forall_impl; [|exact H].
  intros d [Hd| ->]; [now apply lowdig_ascii|exact Hc].
Qed.

(** X11. On a string of ASCII code units the simplified toKebabCase of
    chain_prompt.js returns the maximal alphanumeric runs of the string,
    lower-cased and joined by single hyphens: leading and trailing
    separators leave nothing, and a run of separators leaves one
    hyphen. *)
Theorem simplified_kebab_joins_runs (s : jsstring) :
  Forall (fun d => (d < 128)%N) s ->
  ChainPrompt.toKebabCase (VString s) =
  Return (join [cu "-"] (map toLowerCase (alnumRuns s))).
Proof. intros _. apply simplified_toKebabCase_string. Qed.

Lemma simplified_kebab_joins_runs_witness :
  ChainPrompt.toKebabCase (VString (lit "  Andy__Nguyen + AWS2 "))
  = Return (join [cu "-"]
              (map toLowerCase (alnumRuns (lit "  Andy__Nguyen + AWS2 ")))).
Proof.
  apply (simplified_kebab_joins_runs (lit "  Andy__Nguyen + AWS2 ")).
  repeat constructor.
Defined.

(** X12. On a string of ASCII code units the simplified toKebabCase is
    the delimiter-aware toKebabCase of the lower-cased string; so the
    two agree on every such string without an upper-case letter, and
    differ only through the boundaries that upper-case letters make. *)
Theorem simplified_kebab_is_kebab_of_lowercase (s : jsstring) :
  Forall (fun d => (d < 128)%N) s ->
  ChainPrompt.toKebabCase (VString s)
    = Part000.toKebabCase (VString (toLowerCase s)) /\
  (Forall (fun d => isUpper d = false) s ->
   ChainPrompt.toKebabCase (VString s) = Part000.toKebabCase (VString s)).
Proof.
  intros _.
  assert (E : ChainPrompt.toKebabCase (VString s)
              = Part000.toKebabCase (VString (toLowerCase s))).
  { rewrite simplified_toKebabCase_string. cbv [Part000.toKebabCase].
    rewrite delimitedWords_no_upper by apply toLowerCase_no_upper.
    rewrite alnumRuns_toLowerCase.
    now rewrite (lowWords_fixed _ (alnumRuns_lowWords s)). }
  split; [exact E|].
  intros Hs. rewrite E. now rewrite toLowerCase_fixed.
Qed.

Lemma simplified_kebab_is_kebab_of_lowercase_witness :
  ChainPrompt.toKebabCase (VString (lit "andyNguyen AWS"))
    = Part000.toKebabCase (VString (toLowerCase (lit "andyNguyen AWS"))) /\
  ChainPrompt.toKebabCase (VString (lit "andy_nguyen 2023"))
    = Part000.toKebabCase (VString (lit "andy_nguyen 2023")).
Proof.
  split.
  - apply (simplified_kebab_is_kebab_of_lowercase (lit "andyNguyen AWS")).
    repeat constructor.
  - apply (simplified_kebab_is_kebab_of_lowercase (lit "andy_nguyen 2023"));
      repeat constructor.
Defined.

(** X13. The simplified toKebabCase leaves every result of the
    delimiter-aware toKebabCase as it is and turns every result of
    dotCase into that of toKebabCase; both results are ASCII, whatever
    the input. *)
Theorem simplified_kebab_on_results (s : jsstring) :
  exists d k,
    dotCase (VString s) = Return d /\
    Part000.toKebabCase (VString s) = Return k /\
    Forall (fun c => (c < 128)%N) d /\
    Forall (fun c => (c < 128)%N) k /\
    ChainPrompt.toKebabCase (VString k) = Return k /\
    ChainPrompt.toKebabCase (VString d) = Return k.
Proof.
  pose proof (lowered_words _ (delimitedWords_wf s)) as Hws.
  do 2 eexists.
  split; [reflexivity|]. split; [reflexivity|].
  split; [now apply join_lowWords_ascii|].
  split; [now apply join_lowWords_ascii|].
  split; rewrite simplified_toKebabCase_string.
  - rewrite (runs_join (cu "-") _ eq_refl Hws). now rewrite lowWords_fixed.
  - rewrite (runs_join (cu ".") _ eq_refl Hws). now rewrite lowWords_fixed.
Qed.

(** X14. On strings of ASCII code units the simplified toKebabCase is
    idempotent, and its result is again ASCII: lower-case letters and
    digits in words joined by single hyphens. *)
Theorem simplified_kebab_idempotent (s : jsstring) :
  Forall (fun d => (d < 128)%N) s ->
  exists r,
    ChainPrompt.toKebabCase (VString s) = Return r /\
    Forall (fun d => (d < 128)%N) r /\
    Forall (fun d => isLowDig d = true \/ d = cu "-") r /\
    ChainPrompt.toKebabCase (VString r) = Return r.
Proof.
  intros _. pose proof (alnumRuns_lowWords s) as Hws.
  eexists. split; [apply simplified_toKebabCase_string|].
  split; [now apply join_lowWords_ascii|].
  split; [now apply join_lowWords_shape|].
  rewrite simplified_toKebabCase_string.
  rewrite (runs_join (cu "-") _ eq_refl Hws).
  now rewrite lowWords_fixed.
Qed.

Lemma simplified_kebab_idempotent_witness :
  exists r,
    ChainPrompt.toKebabCase (VString (lit "Andy Nguyen+AWS")) = Return r /\
    Forall (fun d => (d < 128)%N) r /\
    Forall (fun d => isLowDig d = true \/ d = cu "-") r /\
    ChainPrompt.toKebabCase (VString r) = Return r.
Proof.
  apply (simplified_kebab_idempotent (lit "Andy Nguyen+AWS")).
  repeat constructor.
Defined.

(* ================================================================== *)
(** * camelCase, then dotCase or toKebabCase                           *)
(* ================================================================== *)

Lemma lower_lowdig c : isLower c = true -> isLowDig c = true.
Proof. by_ranges. Qed.

Lemma lower_not_upper c : isLower c = true -> isUpper c = false.
Proof. by_ranges. Qed.

Lemma lower_alnum c : isLower c = true -> isAlnum c = true.
Proof. by_ranges. Qed.

Lemma upperUnit_upper c : isLower c = true -> isUpper (upperUnit c) = true.
Proof. by_ranges. Qed.

Lemma upperUnit_differs c : isLower c = true -> N.eqb c (upperUnit c) = false.
Proof.
  intros H. apply N.eqb_neq. unfold upperUnit. rewrite H.
  revert H. unfold isLower, between. rewrite andb_true_iff, !N.leb_le. lia.
Qed.

Lemma lowers_no_upper (w : jsstring) :
  Forall (fun d => isLower d = true) w ->
  Forall (fun d => isUpper d = false) w.
Proof.
  intros H. eapply Forall_impl; [|exact H]. intros d. apply lower_not_upper.
Qed.

Lemma lowers_alnum (w : jsstring) :
  Forall (fun d => isLower d = true) w ->
  Forall (fun d => isAlnum d = true) w.
Proof.
  intros H. eapply Forall_impl; [|exact H]. intros d. apply lower_alnum.
Qed.

(** A later word of lower-case letters is capitalized by [camelCase]. *)
Lemma camelWord_later_lower (w : jsstring) (i : nat) :
  w <> [] -> Forall (fun d => isLower d = true) w ->
  camelWord w (S i) = capitalize w.
Proof.
  intros Hne Hw. destruct w as [|a w]; [congruence|].
  inversion Hw as [|? ? Ha _]; subst.
  unfold camelWord. cbn [toUpperCase map strictEq].
  now rewrite (upperUnit_differs a Ha).
Qed.

Lemma mapFrom_later_lower (ws : list jsstring) :
  Forall (fun w => w <> [] /\ Forall (fun d => isLower d = true) w) ws ->
  forall i, mapFrom camelWord (S i) ws = map capitalize ws.
Proof.
  induction 1 as [|w ws [Hne Hw] _ IH]; intros i; [reflexivity|].
  simpl. now rewrite camelWord_later_lower, IH.
Qed.

Lemma toLowerCase_capitalize (w : jsstring) :
  toLowerCase (capitalize w) = toLowerCase w.
Proof.
  destruct w as [|a w]; [reflexivity|].
  cbn [capitalize toLowerCase map].
  rewrite lowerUnit_upperUnit. f_equal. apply toLowerCase_idem.
Qed.

Lemma capitalize_cons (a : N) (t : jsstring) :
  Forall (fun d => isUpper d = false) t ->
  capitalize (a :: t) = upperUnit a :: t.
Proof. intros H. cbn [capitalize]. now rewrite toLowerCase_fixed. Qed.

(** Step 1 in front of a capital that follows lower-case letters. *)
Lemma insertWhere_lowerUpper_before_capital (v : jsstring) (A : N)
    (Z : jsstring) :
  v <> [] -> Forall (fun d => isLower d = true) v -> isUpper A = true ->
  insertWhere lowerUpperBoundary (v ++ A :: Z) =
  v ++ cu " " :: insertWhere lowerUpperBoundary (A :: Z).
Proof.
  intros Hne Hv HA. induction Hv as [|x v Hx Hv IH]; [congruence|].
  rewrite <- app_comm_cons, insertWhere_cons.
  destruct v as [|y v].
  - cbn [app lowerUpperBoundary].
    now rewrite (lower_lowdig x Hx), HA.
  - cbn [app lowerUpperBoundary] in *.
    inversion Hv as [|? ? Hy _]; subst.
    rewrite (lower_not_upper y Hy), andb_false_r.
    cbn [app]. f_equal. apply IH. discriminate.
Qed.

(** Step 1 on a camel-cased text: a space in front of every capital. *)
Lemma insertWhere_lowerUpper_camel (rest : list jsstring) :
  Forall (fun w => (2 <= List.length w)%nat /\
                   Forall (fun d => isLower d = true) w) rest ->
  forall v, v <> [] -> Forall (fun d => isLower d = true) v ->
    insertWhere lowerUpperBoundary (v ++ List.concat (map capitalize rest)) =
    join [cu " "] (v :: map capitalize rest).
Proof.
  induction 1 as [|w rest [Hlen Hw] _ IH]; intros v Hne Hv.
  - simpl. rewrite app_nil_r.
    apply insertWhere_lowerUpper_id. now apply lowers_no_upper.
  - destruct w as [|a [|b w]]; try (simpl in Hlen; lia).
    inversion Hw as [|? ? Ha Hw']; subst.
    cbn [map List.concat].
    rewrite (capitalize_cons a (b :: w)) by now apply lowers_no_upper.
    change (v ++ (upperUnit a :: b :: w) ++ List.concat (map capitalize rest))
      with (v ++ upperUnit a
              :: ((b :: w) ++ List.concat (map capitalize rest))).
    rewrite insertWhere_lowerUpper_before_capital
      by (assumption || now apply upperUnit_upper).
    rewrite insertWhere_cons, lowerUpperBoundary_upper
      by now apply upperUnit_upper.
    rewrite join_cons2, join_cons_head.
    apply (f_equal (app v)). cbn [app]. do 2 f_equal.
    apply (IH (b :: w)); [discriminate|assumption].
Qed.

Lemma insertWhere_acronym_join (c : N) (ws : list jsstring) :
  isAlnum c = false ->
  insertWhere acronymBoundary (join [c] ws) =
  join [c] (map (insertWhere acronymBoundary) ws).
Proof.
  intros Hc. induction ws as [|w [|w' ws] IH]; [reflexivity|reflexivity|].
  rewrite join_cons2. cbn [app].
  rewrite insertWhere_acronym_split by assumption.
  rewrite IH. reflexivity.
Qed.

Lemma insertWhere_acronym_capitalize (w : jsstring) :
  (2 <= List.length w)%nat -> Forall (fun d => isLower d = true) w ->
  insertWhere acronymBoundary (capitalize w) = capitalize w.
Proof.
  intros Hlen Hw. destruct w as [|a [|b w]]; try (simpl in Hlen; lia).
  inversion Hw as [|? ? Ha Hw']; subst.
  cbn [capitalize]. rewrite (toLowerCase_fixed (b :: w))
    by now apply lowers_no_upper.
  rewrite insertWhere_cons.
  rewrite acronymBoundary_upper_low
    by (inversion Hw'; now apply lower_not_upper).
  cbn [app]. f_equal. apply insertWhere_acronym_id.
  now apply lowers_no_upper.
Qed.

Lemma runs_join_alnum (c : N) (ws : list jsstring) :
  isAlnum c = false ->
  Forall (fun w => w <> [] /\ Forall (fun d => isAlnum d = true) w) ws ->
  alnumRuns (join [c] ws) = ws.
Proof.
  intros Hc. unfold alnumRuns.
  induction 1 as [|w ws [Hne Hw] Hws IH]; [reflexivity|].
  destruct ws as [|w' ws].
  - now apply runs_word.
  - rewrite join_cons2. cbn [app].
    rewrite runs_word_sep by assumption. f_equal. exact IH.
Qed.

(** The delimiter-aware word list of a camel-cased text. *)
Lemma delimitedWords_camel (v : jsstring) (rest : list jsstring) :
  v <> [] -> Forall (fun d => isLower d = true) v ->
  Forall (fun w => (2 <= List.length w)%nat /\
                   Forall (fun d => isLower d = true) w) rest ->
  delimitedWords (v ++ List.concat (map capitalize rest)) =
  v :: map capitalize rest.
Proof.
  intros Hne Hv Hrest.
  rewrite delimitedWords_runs.
  rewrite insertWhere_lowerUpper_camel by assumption.
  rewrite insertWhere_acronym_join by reflexivity.
  cbn [map]. rewrite insertWhere_acronym_id by now apply lowers_no_upper.
  assert (Hfix : map (insertWhere acronymBoundary) (map capitalize rest)
                 = map capitalize rest).
  { clear Hne Hv. induction Hrest as [|w rest [Hlen Hw] _ IH]; [reflexivity|].
    simpl. now rewrite insertWhere_acronym_capitalize, IH. }
  rewrite Hfix. apply runs_join_alnum; [reflexivity|].
  constructor; [split; [exact Hne|now apply lowers_alnum]|].
  apply Forall_map. eapply Forall_impl; [|exact Hrest].
  intros w [Hlen Hw]. destruct w as [|a w]; [simpl in Hlen; lia|].
  split; [discriminate|].
  inversion Hw as [|? ? Ha Hw']; subst.
  cbn [capitalize]. constructor.
  - apply upper_alnum. now apply upperUnit_upper.
  - apply toLowerCase_alnum. now apply lowers_alnum.
Qed.

Lemma map_lower_capitalize (rest : list jsstring) :
  Forall (fun w => (2 <= List.length w)%nat /\
                   Forall (fun d => isLower d = true) w) rest ->
  map toLowerCase (map capitalize rest) = rest.
Proof.
  induction 1 as [|w rest [_ Hw] _ IH]; [reflexivity|].
  simpl. rewrite toLowerCase_capitalize, IH.
  now rewrite toLowerCase_fixed by now apply lowers_no_upper.
Qed.

(** X15. Where every word of the input is made of lower-case letters and
    every word after the first has at least two of them, camelCase loses
    nothing: dotCase and the delimiter-aware toKebabCase of its result
    are the words of the input joined by [.] and by [-], the same as
    dotCase and toKebabCase of the input itself. *)
Theorem camelCase_then_dotCase_toKebabCase (s : jsstring) :
  Forall (fun w => Forall (fun d => isLower d = true) w) (alnumRuns s) ->
  Forall (fun w => (2 <= List.length w)%nat) (tl (alnumRuns s)) ->
  exists r,
    camelCase (VString s) = Return r /\
    dotCase (VString r) = Return (join [cu "."] (alnumRuns s)) /\
    toKebabCase (VString r) = Return (join [cu "-"] (alnumRuns s)) /\
    dotCase (VString r) = dotCase (VString s) /\
    toKebabCase (VString r) = toKebabCase (VString s).
Proof.
  intros Hlow Hlen.
  assert (Hs : delimitedWords s = alnumRuns s).
  { rewrite delimitedWords_of_runs.
    pose proof (runsFrom_wf isAlnum s [] (Forall_nil _)) as Hwf.
    fold (alnumRuns s) in Hwf. clear Hlen.
    induction Hwf as [|w ws [Hne _] _ IH]; [reflexivity|].
    inversion Hlow as [|? ? Hw Hlow']; subst.
    cbn [flat_map]. rewrite IH by assumption.
    rewrite delimitedWords_no_upper by now apply lowers_no_upper.
    unfold alnumRuns. rewrite runs_word; [reflexivity|exact Hne|].
    now apply lowers_alnum. }
  assert (Hfix : map toLowerCase (alnumRuns s) = alnumRuns s).
  { clear Hlen Hs. induction Hlow as [|w ws Hw _ IH]; [reflexivity|].
    simpl. rewrite IH. f_equal. apply toLowerCase_fixed.
    now apply lowers_no_upper. }
  assert (Hr : exists r,
             camelCase (VString s) = Return r /\
             map toLowerCase (delimitedWords r) = alnumRuns s).
  { rewrite camelCase_string, camelWords_runs.
    pose proof (runsFrom_wf isAlnum s [] (Forall_nil _)) as Hwf.
    fold (alnumRuns s) in Hwf.
    destruct (alnumRuns s) as [|v rest]; [now exists []|].
    inversion Hwf as [|? ? [Hne _] Hwf']; subst.
    inversion Hlow as [|? ? Hv Hlow']; subst.
    simpl in Hlen.
    assert (Hrest : Forall (fun w => (2 <= List.length w)%nat /\
                      Forall (fun d => isLower d = true) w) rest).
    { clear - Hlen Hlow'. induction rest as [|w rest IH]; [constructor|].
      inversion Hlen; inversion Hlow'; subst. constructor; [now split|].
      now apply IH. }
    assert (Hrest' : Forall (fun w => w <> [] /\
                       Forall (fun d => isLower d = true) w) rest).
    { eapply Forall_impl; [|exact Hrest]. intros w [Hl Hw].
      split; [|exact Hw]. destruct w; [simpl in Hl; lia|discriminate]. }
    eexists. split; [reflexivity|].
    unfold mapi. cbn [mapFrom List.concat].
    rewrite camelWord_zero, mapFrom_later_lower by assumption.
    rewrite (toLowerCase_fixed v) by now apply lowers_no_upper.
    rewrite delimitedWords_camel by assumption.
    cbn [map]. rewrite map_lower_capitalize by assumption.
    now rewrite toLowerCase_fixed by now apply lowers_no_upper. }
  destruct Hr as (r & Er & Ew).
  exists r. split; [exact Er|].
  cbv [dotCase toKebabCase]. rewrite Ew, Hs, Hfix. repeat split.
Qed.

Lemma camelCase_then_dotCase_toKebabCase_witness :
  exists r,
    camelCase (VString (lit "andy_nguyen aws")) = Return r /\
    dotCase (VString r)
      = Return (join [cu "."] (alnumRuns (lit "andy_nguyen aws"))) /\
    toKebabCase (VString r)
      = Return (join [cu "-"] (alnumRuns (lit "andy_nguyen aws"))) /\
    dotCase (VString r) = dotCase (VString (lit "andy_nguyen aws")) /\
    toKebabCase (VString r) = toKebabCase (VString (lit "andy_nguyen aws")).
Proof.
  apply (camelCase_then_dotCase_toKebabCase (lit "andy_nguyen aws")).
  - vm_compute. repeat constructor.
  - vm_compute. repeat constructor.
Defined.
